(** * Partition model of the image splitter (src/split.py)

    Shallow embedding of [SplitPoint] and [SplitStateManager] and of the
    part of pygame's [Rect] that they use, followed by the properties of
    the clipping recompute and of the box subdivision.

    Python objects are shared: the manager's [selected_point] is a
    reference to one of the objects held in [split_points], and every
    command mutates that object in place.  The embedding therefore keeps
    an object store ([objects]) and lets [split_points] and
    [selected_point] hold references into it. *)

From stdpp Require Import prelude sorting.
From Stdlib Require Import ZArith Lia Sorted.

Local Open Scope Z_scope.

(** ** pygame.Rect *)

(** A [pygame.Rect] is four integers; nothing normalises a negative
    width or height.  Two rectangles are [==] when the four fields are. *)
Record Rect : Type := mkRect {
  rect_x : Z;
  rect_y : Z;
  rect_w : Z;
  rect_h : Z
}.

#[global] Instance Rect_eq_dec : EqDecision Rect.
Proof. solve_decision. Defined.

(** [box.right] and [box.bottom]. *)
Definition Rect_right (r : Rect) : Z := rect_x r + rect_w r.
Definition Rect_bottom (r : Rect) : Z := rect_y r + rect_h r.

(** [self.contains(arg)] as pygame's rect.c computes it: the argument
    lies within [self] on both axes and, in addition, its top-left corner
    is strictly before the right and bottom edges of [self].  The last two
    comparisons are what decides the case of a 0x0 rectangle. *)
Definition Rect_contains (self arg : Rect) : bool :=
  (rect_x self <=? rect_x arg) && (rect_y self <=? rect_y arg) &&
  (rect_x self + rect_w self >=? rect_x arg + rect_w arg) &&
  (rect_y self + rect_h self >=? rect_y arg + rect_h arg) &&
  (rect_x self + rect_w self >? rect_x arg) &&
  (rect_y self + rect_h self >? rect_y arg).

(** ** SplitPoint *)

Record SplitPoint : Type := mkSplitPoint {
  pos : Rect;
  horizontal : option (Z * Z);
  vertical : option (Z * Z);
  index : Z
}.

(** [SplitPoint.__init__]. *)
Definition SplitPoint_init (point : Z * Z) : SplitPoint :=
  {| pos := mkRect point.1 point.2 0 0;
     horizontal := None;
     vertical := None;
     index := 0 |}.

#[global] Instance SplitPoint_inhabited : Inhabited SplitPoint :=
  populate (SplitPoint_init (0, 0)).

Definition set_horizontal (v : option (Z * Z)) (self : SplitPoint) : SplitPoint :=
  {| pos := pos self; horizontal := v; vertical := vertical self; index := index self |}.

Definition set_vertical (v : option (Z * Z)) (self : SplitPoint) : SplitPoint :=
  {| pos := pos self; horizontal := horizontal self; vertical := v; index := index self |}.

Definition set_index (i : Z) (self : SplitPoint) : SplitPoint :=
  {| pos := pos self; horizontal := horizontal self; vertical := vertical self; index := i |}.

Definition toggle_horizontal (width : Z) (self : SplitPoint) : SplitPoint :=
  match horizontal self with
  | None => set_horizontal (Some (0, width)) self
  | Some _ => set_horizontal None self
  end.

Definition toggle_vertical (height : Z) (self : SplitPoint) : SplitPoint :=
  match vertical self with
  | None => set_vertical (Some (0, height)) self
  | Some _ => set_vertical None self
  end.

Definition reset_bounds (screen_size : Z * Z) (self : SplitPoint) : SplitPoint :=
  let self1 :=
    match horizontal self with
    | Some _ => set_horizontal (Some (0, screen_size.1)) self
    | None => self
    end in
  match vertical self1 with
  | Some _ => set_vertical (Some (0, screen_size.2)) self1
  | None => self1
  end.

(** The radicand of [distance_to]. *)
Definition distance_sq (self : SplitPoint) (point : Z * Z) : Z :=
  (point.1 - rect_x (pos self)) ^ 2 + (point.2 - rect_y (pos self)) ^ 2.

(** The test [self.distance_to(point) <= radius], the only use the
    manager makes of [distance_to].  For integers the square root of [n]
    is at most [r] exactly when [r] is not negative and [n <= r * r]; the
    rounding of [math.sqrt] cannot change the outcome for window
    coordinates. *)
Definition distance_to_le (self : SplitPoint) (point : Z * Z) (radius : Z) : bool :=
  (0 <=? radius) && (distance_sq self point <=? radius * radius).

(** ** SplitStateManager *)

(** References to [SplitPoint] objects: positions in the object store. *)
Abbreviation loc := nat (only parsing).

Record SplitStateManager : Type := mkManager {
  screen_size : Z * Z;
  dot_radius : Z;
  placing : bool;
  deleting : bool;
  objects : list SplitPoint;
  split_points : list loc;
  selected_point : option loc
}.

(** [SplitStateManager.__init__]. *)
Definition SplitStateManager_init (screen_size : Z * Z) (dot_radius : Z) : SplitStateManager :=
  {| screen_size := screen_size;
     dot_radius := dot_radius;
     placing := false;
     deleting := false;
     objects := [];
     split_points := [];
     selected_point := None |}.

Definition set_placing (b : bool) (s : SplitStateManager) : SplitStateManager :=
  {| screen_size := screen_size s; dot_radius := dot_radius s;
     placing := b; deleting := deleting s; objects := objects s;
     split_points := split_points s; selected_point := selected_point s |}.

Definition set_deleting (b : bool) (s : SplitStateManager) : SplitStateManager :=
  {| screen_size := screen_size s; dot_radius := dot_radius s;
     placing := placing s; deleting := b; objects := objects s;
     split_points := split_points s; selected_point := selected_point s |}.

Definition set_objects (h : list SplitPoint) (s : SplitStateManager) : SplitStateManager :=
  {| screen_size := screen_size s; dot_radius := dot_radius s;
     placing := placing s; deleting := deleting s; objects := h;
     split_points := split_points s; selected_point := selected_point s |}.

Definition set_split_points (l : list loc) (s : SplitStateManager) : SplitStateManager :=
  {| screen_size := screen_size s; dot_radius := dot_radius s;
     placing := placing s; deleting := deleting s; objects := objects s;
     split_points := l; selected_point := selected_point s |}.

Definition set_selected_point (o : option loc) (s : SplitStateManager) : SplitStateManager :=
  {| screen_size := screen_size s; dot_radius := dot_radius s;
     placing := placing s; deleting := deleting s; objects := objects s;
     split_points := split_points s; selected_point := o |}.

(** Reading the object behind a reference. *)
Definition deref (h : list SplitPoint) (p : loc) : SplitPoint := h !!! p.

(** In-place update of the object behind a reference. *)
Definition mutate (f : SplitPoint → SplitPoint) (p : loc) (h : list SplitPoint) : list SplitPoint :=
  alter f p h.

(** [list.remove(x)]: drops the first element equal to [x]. *)
Fixpoint list_remove `{EqDecision A} (x : A) (l : list A) : list A :=
  match l with
  | [] => []
  | y :: r => if decide (y = x) then r else y :: list_remove x r
  end.

(** [sorted(l, key=key)]: Python's sort is stable, which fixes its result;
    insertion from the right, in front of the first element whose key is
    not smaller, computes that result. *)
Fixpoint sorted_insert {A} (key : A → Z) (x : A) (l : list A) : list A :=
  match l with
  | [] => [x]
  | y :: r => if key y <? key x then y :: sorted_insert key x r else x :: y :: r
  end.

Definition sorted {A} (key : A → Z) (l : list A) : list A :=
  foldr (sorted_insert key) [] l.

(** The loop shared by [add_point] and [delete_point]: the first point of
    [split_points] within [dot_radius] of the mouse position. *)
Definition first_near (s : SplitStateManager) (point : Z * Z) : option loc :=
  List.find (λ p, distance_to_le (deref (objects s) p) point (dot_radius s))
            (split_points s).

Fixpoint _calculate_bounds (bound lower_bound upper_bound : Z) (bounds : list Z) : Z * Z :=
  match bounds with
  | [] => (lower_bound, upper_bound)
  | other_bound :: rest =>
      if (bound >? other_bound) && (other_bound >? lower_bound)
      then _calculate_bounds bound other_bound upper_bound rest
      else if (upper_bound >? other_bound) && (other_bound >? bound)
      then _calculate_bounds bound lower_bound other_bound rest
      else _calculate_bounds bound lower_bound upper_bound rest
  end.

(** [o is not None]. *)
Definition is_not_None {A} (o : option A) : bool :=
  match o with Some _ => true | None => false end.

Definition has_horizontal (h : list SplitPoint) (p : loc) : bool :=
  is_not_None (horizontal (deref h p)).

Definition has_vertical (h : list SplitPoint) (p : loc) : bool :=
  is_not_None (vertical (deref h p)).

(** [points[:i]] without the points that share the index of [point]. *)
Definition prior_points_of (h : list SplitPoint) (points : list loc) (i : nat) (point : loc) : list loc :=
  List.filter (λ p, negb (index (deref h p) =? index (deref h point))) (take i points).

(** The two [if point.... is not None] statements of the loop body: the
    interval of [point] is replaced by what [_calculate_bounds] returns for
    the perpendicular cuts of [prior_points]. *)
Definition clip_horizontal (h : list SplitPoint) (prior_points : list loc) (point : loc)
    : list SplitPoint :=
  match horizontal (deref h point) with
  | Some (lo, hi) =>
      mutate (set_horizontal (Some (_calculate_bounds
                (rect_x (pos (deref h point))) lo hi
                (map (λ p, rect_x (pos (deref h p)))
                     (List.filter (has_vertical h) prior_points))))) point h
  | None => h
  end.

Definition clip_vertical (h : list SplitPoint) (prior_points : list loc) (point : loc)
    : list SplitPoint :=
  match vertical (deref h point) with
  | Some (lo, hi) =>
      mutate (set_vertical (Some (_calculate_bounds
                (rect_y (pos (deref h point))) lo hi
                (map (λ p, rect_y (pos (deref h p)))
                     (List.filter (has_horizontal h) prior_points))))) point h
  | None => h
  end.

(** One iteration of the loop of [calculate_line_rects]. *)
Definition line_rects_iter (screen_size : Z * Z) (points : list loc)
    (h : list SplitPoint) (i : nat) : list SplitPoint :=
  match points !! i with
  | None => h
  | Some point =>
      let h1 := mutate (reset_bounds screen_size) point h in
      let prior_points := prior_points_of h1 points i point in
      if (length prior_points =? 0)%nat then h1
      else clip_vertical (clip_horizontal h1 prior_points point) prior_points point
  end.

Definition calculate_line_rects (s : SplitStateManager) : SplitStateManager :=
  let points := sorted (λ p, index (deref (objects s) p)) (split_points s) in
  set_objects
    (foldl (line_rects_iter (screen_size s) points) (objects s)
           (seq 0 (length points)))
    s.

(** [add_point], with the mouse position it reads as an argument. *)
Definition add_point (current_point : Z * Z) (s : SplitStateManager) : SplitStateManager :=
  match first_near s current_point with
  | Some p => set_selected_point (Some p) s
  | None =>
      let p := length (objects s) in
      let s1 := set_objects (objects s ++ [SplitPoint_init current_point]) s in
      let s2 := set_split_points (split_points s1 ++ [p]) s1 in
      let s3 := set_placing false s2 in
      set_selected_point (last (split_points s3)) s3
  end.

(** [delete_point], with the mouse position it reads as an argument. *)
Definition delete_point (point : Z * Z) (s : SplitStateManager) : SplitStateManager :=
  let s1 :=
    match first_near s point with
    | Some p =>
        let s' := set_split_points (list_remove p (split_points s)) s in
        if decide (Some p = selected_point s')
        then set_selected_point None s' else s'
    | None => s
    end in
  calculate_line_rects (set_deleting false s1).

Definition horizontal_split (s : SplitStateManager) : SplitStateManager :=
  match selected_point s with
  | None => s
  | Some p =>
      calculate_line_rects
        (set_objects (mutate (toggle_horizontal (screen_size s).1) p (objects s)) s)
  end.

Definition vertical_split (s : SplitStateManager) : SplitStateManager :=
  match selected_point s with
  | None => s
  | Some p =>
      calculate_line_rects
        (set_objects (mutate (toggle_vertical (screen_size s).2) p (objects s)) s)
  end.

Definition increment_index (s : SplitStateManager) : SplitStateManager :=
  match selected_point s with
  | None => s
  | Some p =>
      calculate_line_rects
        (set_objects (mutate (λ q, set_index (index q + 1) q) p (objects s)) s)
  end.

Definition decrement_index (s : SplitStateManager) : SplitStateManager :=
  match selected_point s with
  | None => s
  | Some p =>
      calculate_line_rects
        (set_objects (mutate (λ q, set_index (index q - 1) q) p (objects s)) s)
  end.

(** [on_mouse_down], with the triple of [pygame.mouse.get_pressed] as an
    argument. *)
Definition on_mouse_down (press : bool * bool * bool) (s : SplitStateManager) : SplitStateManager :=
  if press.1.1 then set_placing true s
  else if press.2 then set_deleting true s
  else s.

Definition on_mouse_up (mouse_pos : Z * Z) (s : SplitStateManager) : SplitStateManager :=
  if placing s then add_point mouse_pos s
  else if deleting s then delete_point mouse_pos s
  else s.

(** ** Grouping and box subdivision *)

Definition has_cut (h : list SplitPoint) (p : loc) : bool :=
  has_horizontal h p || has_vertical h p.

(** One iteration of the loop of [group_points]; [groups] is never empty,
    so [groups[-1]] is its last element. *)
Definition group_points_iter (h : list SplitPoint) (groups : list (list loc)) (point : loc)
    : list (list loc) :=
  let current := List.last groups [] in
  match current with
  | [] => removelast groups ++ [current ++ [point]]
  | first :: _ =>
      if index (deref h first) =? index (deref h point)
      then removelast groups ++ [current ++ [point]]
      else groups ++ [[point]]
  end.

Definition group_points (s : SplitStateManager) : list (list loc) :=
  foldl (group_points_iter (objects s)) [[]]
        (sorted (λ p, index (deref (objects s) p))
                (List.filter (has_cut (objects s)) (split_points s))).

Definition subdivide_box (h : list SplitPoint) (box : Rect) (points : list loc) : list Rect :=
  let vertical_cuts :=
    map (λ p, rect_x (pos (deref h p))) (List.filter (has_vertical h) points)
    ++ [Rect_right box] in
  let horizontal_cuts :=
    map (λ p, rect_y (pos (deref h p))) (List.filter (has_horizontal h) points)
    ++ [Rect_bottom box] in
  flat_map (λ ix,
    let x1 := if (ix =? 0)%nat then rect_x box else vertical_cuts !!! (ix - 1)%nat in
    let x2 := vertical_cuts !!! ix in
    map (λ iy,
      let y1 := if (iy =? 0)%nat then rect_y box else horizontal_cuts !!! (iy - 1)%nat in
      let y2 := horizontal_cuts !!! iy in
      mkRect x1 y1 (x2 - x1) (y2 - y1))
      (seq 0 (length horizontal_cuts)))
    (seq 0 (length vertical_cuts)).

(** The points of a group handed to [subdivide_box] for one box. *)
Definition points_in_box (h : list SplitPoint) (box : Rect) (group : list loc) : list loc :=
  List.filter (λ p, Rect_contains box (pos (deref h p))) group.

(** The body of [for box in tuple(boxes)]. *)
Definition boxes_iter (h : list SplitPoint) (group : list loc) (boxes : list Rect) (box : Rect)
    : list Rect :=
  let new_boxes := subdivide_box h box (points_in_box h box group) in
  list_remove box boxes ++ new_boxes.

Definition calculate_boxes (s : SplitStateManager) : list Rect :=
  let groups := group_points s in
  let boxes := [mkRect 0 0 (screen_size s).1 (screen_size s).2] in
  foldl (λ boxes group, foldl (boxes_iter (objects s) group) boxes boxes) boxes groups.

(** ** Commands *)

Inductive command : Type :=
  | MouseDown (press : bool * bool * bool)
  | MouseUp (mouse_pos : Z * Z)
  | AddPoint (mouse_pos : Z * Z)
  | DeletePoint (mouse_pos : Z * Z)
  | HorizontalSplit
  | VerticalSplit
  | IncrementIndex
  | DecrementIndex.

Definition run (c : command) (s : SplitStateManager) : SplitStateManager :=
  match c with
  | MouseDown press => on_mouse_down press s
  | MouseUp mouse_pos => on_mouse_up mouse_pos s
  | AddPoint mouse_pos => add_point mouse_pos s
  | DeletePoint mouse_pos => delete_point mouse_pos s
  | HorizontalSplit => horizontal_split s
  | VerticalSplit => vertical_split s
  | IncrementIndex => increment_index s
  | DecrementIndex => decrement_index s
  end.

Definition run_all (cs : list command) (s : SplitStateManager) : SplitStateManager :=
  foldl (λ s c, run c s) s cs.

(** The states the program can be in: those a sequence of commands
    produces from a fresh manager. *)
Inductive reachable (size : Z * Z) (radius : Z) : SplitStateManager → Prop :=
  | reachable_init : reachable size radius (SplitStateManager_init size radius)
  | reachable_run c s : reachable size radius s → reachable size radius (run c s).

(** ** Definitions used to state the properties *)

(** What the claims call the tightest bounds: the largest candidate below
    [bound] (or the starting lower bound) and the smallest one above it
    (or the starting upper bound). *)
Definition tightest_lower (bound lower_bound : Z) (bounds : list Z) : Z :=
  foldr Z.max lower_bound (List.filter (λ x, x <? bound) bounds).

Definition tightest_upper (bound upper_bound : Z) (bounds : list Z) : Z :=
  foldr Z.min upper_bound (List.filter (λ x, bound <? x) bounds).

Definition is_max_of (m : Z) (l : list Z) : Prop :=
  In m l ∧ ∀ y, In y l → y ≤ m.

Definition is_min_of (m : Z) (l : list Z) : Prop :=
  In m l ∧ ∀ y, In y l → m ≤ y.

(** The clipping recompute reads of every point its position, its index
    and which of its two cuts are active; it writes the intervals only. *)
Definition frame (self : SplitPoint) : Rect * Z * bool * bool :=
  (pos self, index self, is_not_None (horizontal self), is_not_None (vertical self)).

(** The x-coordinates of the points of [l] that have a vertical cut, the
    y-coordinates of those that have a horizontal cut. *)
Definition vertical_xs (h : list SplitPoint) (l : list loc) : list Z :=
  map (λ p, rect_x (pos (deref h p))) (List.filter (has_vertical h) l).

Definition horizontal_ys (h : list SplitPoint) (l : list loc) : list Z :=
  map (λ p, rect_y (pos (deref h p))) (List.filter (has_horizontal h) l).

(** A point whose active intervals are the tightest bounds among the
    candidates [xs] and [ys]. *)
Definition clip (screen_size : Z * Z) (xs ys : list Z) (self : SplitPoint) : SplitPoint :=
  {| pos := pos self;
     horizontal :=
       if is_not_None (horizontal self)
       then Some (tightest_lower (rect_x (pos self)) 0 xs,
                  tightest_upper (rect_x (pos self)) screen_size.1 xs)
       else None;
     vertical :=
       if is_not_None (vertical self)
       then Some (tightest_lower (rect_y (pos self)) 0 ys,
                  tightest_upper (rect_y (pos self)) screen_size.2 ys)
       else None;
     index := index self |}.

Definition clip_horizontal_point (xs : list Z) (self : SplitPoint) : SplitPoint :=
  match horizontal self with
  | Some (lo, hi) =>
      set_horizontal (Some (_calculate_bounds (rect_x (pos self)) lo hi xs)) self
  | None => self
  end.

Definition clip_vertical_point (ys : list Z) (self : SplitPoint) : SplitPoint :=
  match vertical self with
  | Some (lo, hi) =>
      set_vertical (Some (_calculate_bounds (rect_y (pos self)) lo hi ys)) self
  | None => self
  end.

(** The points of [l] whose index is strictly below [ix]. *)
Definition lower_priority (h : list SplitPoint) (l : list loc) (ix : Z) : list loc :=
  List.filter (λ q, index (deref h q) <? ix) l.

(** A point with its active intervals clipped by the perpendicular cuts of
    the points of strictly lower index. *)
Definition recompute_point (screen_size : Z * Z) (h : list SplitPoint) (l : list loc)
    (self : SplitPoint) : SplitPoint :=
  clip screen_size
       (vertical_xs h (lower_priority h l (index self)))
       (horizontal_ys h (lower_priority h l (index self)))
       self.

(** [a] may stand before [b] in a list sorted by [key]. *)
Definition key_le {A} (key : A → Z) (a b : A) : Prop := key a ≤ key b.

(** The store after the first [k] iterations of the loop of
    [calculate_line_rects] on the store [h0] and the points [l]: the points
    visited so far are recomputed, the others are as they were. *)
Definition visited (screen_size : Z * Z) (h0 : list SplitPoint) (l : list loc)
    (k : nat) (h : list SplitPoint) : Prop :=
  ∀ p : loc,
    h !! p = if decide (p ∈ take k (sorted (λ p, index (deref h0 p)) l))
             then recompute_point screen_size h0 l <$> h0 !! p
             else h0 !! p.

(** Nothing changes when the clipping is recomputed from scratch. *)
Definition recomputed (s : SplitStateManager) : Prop :=
  calculate_line_rects s = s.

(** No reference of [split_points] is dangling; Python has no other kind. *)
Definition valid_refs (s : SplitStateManager) : Prop :=
  ∀ p : loc, In p (split_points s) → (p < length (objects s))%nat.

(** The candidates that may clip the horizontal interval of [self]: the
    x-coordinates of the points of strictly lower index that have a
    vertical cut.  Symmetrically for its vertical interval. *)
Definition clipping_xs (s : SplitStateManager) (self : SplitPoint) : list Z :=
  vertical_xs (objects s) (lower_priority (objects s) (split_points s) (index self)).

Definition clipping_ys (s : SplitStateManager) (self : SplitPoint) : list Z :=
  horizontal_ys (objects s) (lower_priority (objects s) (split_points s) (index self)).

Definition below (bound : Z) (candidates : list Z) : list Z :=
  List.filter (λ x, x <? bound) candidates.

Definition above (bound : Z) (candidates : list Z) : list Z :=
  List.filter (λ x, bound <? x) candidates.

(** The pixels of a rectangle: those that [image.crop] keeps for the box
    [(left, top, right, bottom)]. *)
Definition Rect_covers (r : Rect) (pixel : Z * Z) : bool :=
  (rect_x r <=? pixel.1) && (pixel.1 <? Rect_right r) &&
  (rect_y r <=? pixel.2) && (pixel.2 <? Rect_bottom r).

Definition overlapping (a b : Rect) : Prop :=
  ∃ pixel, Rect_covers a pixel = true ∧ Rect_covers b pixel = true.

Definition pairwise_disjoint (boxes : list Rect) : Prop :=
  ∀ (i j : nat) a b, i ≠ j → boxes !! i = Some a → boxes !! j = Some b →
    ¬ overlapping a b.

(** The boxes of a list that hold a pixel. *)
Definition covering (boxes : list Rect) (pixel : Z * Z) : list Rect :=
  List.filter (λ r, Rect_covers r pixel) boxes.

(** [boxes] tile [canvas]: every pixel of the canvas is in exactly one of
    the boxes, counted by position in the list, and a pixel off the canvas
    is in none. *)
Definition tiles (canvas : Rect) (boxes : list Rect) : Prop :=
  ∀ pixel, length (covering boxes pixel)
           = if Rect_covers canvas pixel then 1%nat else 0%nat.

(** The successive slices that the two loops of [subdivide_box] walk
    through: from [start] to the first cut, from each cut to the next. *)
Fixpoint slices (start : Z) (cuts : list Z) : list (Z * Z) :=
  match cuts with
  | [] => []
  | c :: rest => (start, c) :: slices c rest
  end.

Definition in_slice (v : Z) (slice : Z * Z) : bool :=
  (slice.1 <=? v) && (v <? slice.2).

(** The grid of boxes over two lists of slices, column by column. *)
Definition grid (columns rows : list (Z * Z)) : list Rect :=
  flat_map (λ c, map (λ r, mkRect c.1 r.1 (c.2 - c.1) (r.2 - r.1)) rows) columns.

(** The cuts of every group come in ascending order, on both axes. *)
Definition cuts_ascending (s : SplitStateManager) : Prop :=
  ∀ group, In group (group_points s) →
    StronglySorted Z.le (vertical_xs (objects s) group) ∧
    StronglySorted Z.le (horizontal_ys (objects s) group).

(** The inclusive test: every edge of the box counts as inside. *)
Definition inside_inclusive (box : Rect) (self : SplitPoint) : bool :=
  (rect_x box <=? rect_x (pos self)) && (rect_x (pos self) <=? Rect_right box) &&
  (rect_y box <=? rect_y (pos self)) && (rect_y (pos self) <=? Rect_bottom box).

(** The half-open test: the left and top edges count as inside, the right
    and bottom edges do not. *)
Definition inside_half_open (box : Rect) (self : SplitPoint) : bool :=
  (rect_x box <=? rect_x (pos self)) && (rect_x (pos self) <? Rect_right box) &&
  (rect_y box <=? rect_y (pos self)) && (rect_y (pos self) <? Rect_bottom box).

(** The commands that act on the selected point. *)
Definition acts_on_selection (c : command) : bool :=
  match c with
  | HorizontalSplit | VerticalSplit | IncrementIndex | DecrementIndex => true
  | _ => false
  end.

Definition fresh_manager : SplitStateManager := SplitStateManager_init (100, 100) 5.

(** A at (50,50) with a horizontal cut and index 0, B at (50,80) with a
    vertical cut and index 1. *)
Definition scenario_T : SplitStateManager :=
  run_all [AddPoint (50, 50); HorizontalSplit;
           AddPoint (50, 80); VerticalSplit; IncrementIndex] fresh_manager.

(** Two vertical cuts of one group, placed right to left. *)
Definition scenario_unsorted : SplitStateManager :=
  run_all [AddPoint (70, 10); VerticalSplit;
           AddPoint (30, 10); VerticalSplit] fresh_manager.

(** A vertical cut at x = 50 with index 0 and a horizontal cut of index 1
    anchored on that line, at (50,30). *)
Definition scenario_edge : SplitStateManager :=
  run_all [AddPoint (50, 50); VerticalSplit;
           AddPoint (50, 30); HorizontalSplit; IncrementIndex] fresh_manager.

(** The selected point is one of the points of [split_points]. *)
Definition live_selection (s : SplitStateManager) : Prop :=
  ∀ p : loc, selected_point s = Some p → In p (split_points s).

(** What every command keeps of the references: no object is listed
    twice, no reference dangles, the selection is a listed point. *)
Definition well_formed (s : SplitStateManager) : Prop :=
  NoDup (split_points s) ∧ valid_refs s ∧ live_selection s.

(** The position of the object behind a reference, as a mouse position. *)
Definition position (h : list SplitPoint) (p : loc) : Z * Z :=
  (rect_x (pos (deref h p)), rect_y (pos (deref h p))).

(** No point lies within the pick radius of another one. *)
Definition spaced (s : SplitStateManager) : Prop :=
  ∀ p q : loc, In p (split_points s) → In q (split_points s) → p ≠ q →
    distance_to_le (deref (objects s) p) (position (objects s) q) (dot_radius s) = false.

(** The index of a group: that of its first point. *)
Definition group_index (h : list SplitPoint) (group : list loc) : Z :=
  index (deref h (hd 0%nat group)).

(** All the points of a group have the index of the group. *)
Definition uniform (h : list SplitPoint) (group : list loc) : Prop :=
  ∀ p, In p group → index (deref h p) = group_index h group.

(** Groups as runs: none is empty, each holds points of one index, and the
    indices of the groups are strictly ascending. *)
Definition runs (h : list SplitPoint) (groups : list (list loc)) : Prop :=
  Forall (λ g, g ≠ [] ∧ uniform h g) groups ∧
  StronglySorted Z.lt (map (group_index h) groups).

(** The signed area of a box, and of a list of boxes. *)
Definition area (r : Rect) : Z := rect_w r * rect_h r.

Definition total_area (boxes : list Rect) : Z :=
  foldr (λ r a, area r + a) 0 boxes.

(** The signed lengths of a list of slices, added up. *)
Definition total_span (sl : list (Z * Z)) : Z :=
  foldr (λ c a, (c.2 - c.1) + a) 0 sl.

(** One pass of [calculate_boxes] with the working list read as a value:
    every box is replaced, in place, by its subdivision. *)
Definition subdivide_all (h : list SplitPoint) (group : list loc) (boxes : list Rect)
    : list Rect :=
  flat_map (λ box, subdivide_box h box (points_in_box h box group)) boxes.

(** A horizontal cut at (30,40) and a vertical cut at (60,70), both of
    index 0. *)
Definition scenario_grid : SplitStateManager :=
  run_all [AddPoint (30, 40); HorizontalSplit;
           AddPoint (60, 70); VerticalSplit] fresh_manager.

(** The position of every listed point is a 0x0 rectangle. *)
Definition point_positions (s : SplitStateManager) : Prop :=
  ∀ p : loc, In p (split_points s) →
    rect_w (pos (deref (objects s) p)) = 0 ∧ rect_h (pos (deref (objects s) p)) = 0.





(** ** The containment test of pygame *)

(** The cases that pygame's own test of [Rect.contains] checks on
    [Rect(1, 2, 3, 4)]: a rectangle within it, the rectangle itself and an
    empty rectangle within its bounds are contained; a rectangle outside
    it, and both a 1x1 and an empty rectangle at its bottom-right corner,
    are not. *)
Example Rect_contains_cases :
  let r := mkRect 1 2 3 4 in
  Rect_contains r (mkRect 2 3 1 1) = true ∧
  Rect_contains r r = true ∧
  Rect_contains r (mkRect 2 3 0 0) = true ∧
  Rect_contains r (mkRect 0 0 1 2) = false ∧
  Rect_contains r (mkRect 4 6 1 1) = false ∧
  Rect_contains r (mkRect 4 6 0 0) = false.
Proof. repeat split. Qed.

(** ** The loop of [_calculate_bounds] *)

Lemma foldr_max_base x lo l :
  lo ≤ x → foldr Z.max x l = Z.max x (foldr Z.max lo l).
Proof. intros Hx. induction l as [|y l IH]; simpl; lia. Qed.

Lemma foldr_min_base x up l :
  x ≤ up → foldr Z.min x l = Z.min x (foldr Z.min up l).
Proof. intros Hx. induction l as [|y l IH]; simpl; lia. Qed.

Lemma foldr_max_is_max lo l : is_max_of (foldr Z.max lo l) (lo :: l).
Proof.
  induction l as [|y l [Hin Hle]]; simpl.
  - split; [now left|]. intros y [->|[]]. lia.
  - split.
    + destruct (Z.max_spec y (foldr Z.max lo l)) as [[_ ->]|[_ ->]].
      * destruct Hin as [Hin|Hin]; [now left | right; now right].
      * right; now left.
    + intros z [<-|[<-|Hz]].
      * specialize (Hle lo (or_introl eq_refl)). lia.
      * lia.
      * specialize (Hle z (or_intror Hz)). lia.
Qed.

Lemma foldr_min_is_min up l : is_min_of (foldr Z.min up l) (up :: l).
Proof.
  induction l as [|y l [Hin Hle]]; simpl.
  - split; [now left|]. intros y [->|[]]. lia.
  - split.
    + destruct (Z.min_spec y (foldr Z.min up l)) as [[_ ->]|[_ ->]].
      * right; now left.
      * destruct Hin as [Hin|Hin]; [now left | right; now right].
    + intros z [<-|[<-|Hz]].
      * specialize (Hle up (or_introl eq_refl)). lia.
      * lia.
      * specialize (Hle z (or_intror Hz)). lia.
Qed.

Lemma is_max_of_unique m m' l l' :
  (∀ x, In x l ↔ In x l') → is_max_of m l → is_max_of m' l' → m = m'.
Proof.
  intros Hll [Hin Hle] [Hin' Hle'].
  apply Hll in Hin. apply Hll in Hin'.
  specialize (Hle _ Hin'). specialize (Hle' _ Hin). lia.
Qed.

Lemma is_min_of_unique m m' l l' :
  (∀ x, In x l ↔ In x l') → is_min_of m l → is_min_of m' l' → m = m'.
Proof.
  intros Hll [Hin Hle] [Hin' Hle'].
  apply Hll in Hin. apply Hll in Hin'.
  specialize (Hle _ Hin'). specialize (Hle' _ Hin). lia.
Qed.

Lemma _calculate_bounds_tightest bounds : ∀ bound lower_bound upper_bound,
  _calculate_bounds bound lower_bound upper_bound bounds
  = (tightest_lower bound lower_bound bounds, tightest_upper bound upper_bound bounds).
Proof.
  unfold tightest_lower, tightest_upper.
  induction bounds as [|x xs IH]; intros b lo up; simpl; [done|].
  destruct (Z.gtb_spec b x) as [Hbx|Hbx], (Z.gtb_spec x lo) as [Hxl|Hxl],
    (Z.gtb_spec up x) as [Hux|Hux], (Z.gtb_spec x b) as [Hxb|Hxb];
    destruct (Z.ltb_spec x b), (Z.ltb_spec b x); try lia; simpl; rewrite IH;
    f_equal;
    try (rewrite (foldr_max_base x lo) by lia);
    try (rewrite (foldr_min_base x up) by lia);
    try reflexivity;
    try (pose proof (foldr_max_is_max lo (List.filter (λ x, x <? b) xs)) as [_ Hm];
         specialize (Hm lo (or_introl eq_refl)); lia);
    try (pose proof (foldr_min_is_min up (List.filter (λ x, b <? x) xs)) as [_ Hm];
         specialize (Hm up (or_introl eq_refl)); lia).
Qed.

(** The tightest bounds depend on the candidates as a set only. *)
Lemma tightest_lower_ext bound lower_bound l l' :
  (∀ x, In x l ↔ In x l') →
  tightest_lower bound lower_bound l = tightest_lower bound lower_bound l'.
Proof.
  intros Hll. unfold tightest_lower.
  eapply is_max_of_unique; [| apply foldr_max_is_max | apply foldr_max_is_max].
  intros x; simpl. rewrite !filter_In, Hll. tauto.
Qed.

Lemma tightest_upper_ext bound upper_bound l l' :
  (∀ x, In x l ↔ In x l') →
  tightest_upper bound upper_bound l = tightest_upper bound upper_bound l'.
Proof.
  intros Hll. unfold tightest_upper.
  eapply is_min_of_unique; [| apply foldr_min_is_min | apply foldr_min_is_min].
  intros x; simpl. rewrite !filter_In, Hll. tauto.
Qed.

(** ** What the recompute reads and what it writes *)

Lemma frame_pos p q : frame p = frame q → pos p = pos q.
Proof. unfold frame. congruence. Qed.

Lemma frame_index p q : frame p = frame q → index p = index q.
Proof. unfold frame. congruence. Qed.

Lemma frame_horizontal p q :
  frame p = frame q → is_not_None (horizontal p) = is_not_None (horizontal q).
Proof. unfold frame. congruence. Qed.

Lemma frame_vertical p q :
  frame p = frame q → is_not_None (vertical p) = is_not_None (vertical q).
Proof. unfold frame. congruence. Qed.

Lemma frame_reset_bounds screen_size self :
  frame (reset_bounds screen_size self) = frame self.
Proof. unfold reset_bounds, frame. by destruct self as [? [?|] [?|] ?]. Qed.

Lemma frame_clip screen_size xs ys self : frame (clip screen_size xs ys self) = frame self.
Proof. unfold clip, frame. by destruct self as [? [?|] [?|] ?]. Qed.

Lemma clip_same_frame screen_size xs ys p q :
  frame p = frame q → clip screen_size xs ys p = clip screen_size xs ys q.
Proof.
  intros Hf. unfold clip.
  rewrite (frame_pos _ _ Hf), (frame_index _ _ Hf),
    (frame_horizontal _ _ Hf), (frame_vertical _ _ Hf). done.
Qed.

Lemma clip_nil screen_size self : clip screen_size [] [] self = reset_bounds screen_size self.
Proof. unfold clip, reset_bounds. by destruct self as [? [?|] [?|] ?]. Qed.

Lemma deref_alter_eq f (p : loc) (h : list SplitPoint) self :
  h !! p = Some self → deref (alter f p h) p = f self.
Proof.
  intros Hp. unfold deref. rewrite list_lookup_total_alt, list_lookup_alter_eq, Hp. done.
Qed.

Lemma deref_alter_ne f (p q : loc) (h : list SplitPoint) : p ≠ q → deref (alter f p h) q = deref h q.
Proof. intros. unfold deref. by rewrite list_lookup_total_alter_ne. Qed.

Lemma deref_Some (h : list SplitPoint) (p : loc) self : h !! p = Some self → deref h p = self.
Proof. apply list_lookup_total_correct. Qed.

Lemma deref_None (h : list SplitPoint) (p : loc) : h !! p = None → deref h p = SplitPoint_init (0, 0).
Proof. intros Hp. unfold deref. by rewrite list_lookup_total_alt, Hp. Qed.

Lemma alter_None (f : SplitPoint → SplitPoint) (p : loc) (h : list SplitPoint) :
  h !! p = None → alter f p h = h.
Proof.
  intros Hp. apply list_eq. intros i. rewrite list_lookup_alter.
  case_decide; subst; [by rewrite Hp | done].
Qed.

Lemma frame_deref_alter f (p : loc) (h : list SplitPoint) (q : loc) :
  (∀ x, frame (f x) = frame x) → frame (deref (alter f p h) q) = frame (deref h q).
Proof.
  intros Hf. destruct (decide (p = q)) as [->|Hne].
  - destruct (h !! q) as [self|] eqn:Hq.
    + by rewrite (deref_alter_eq _ _ _ _ Hq), (deref_Some _ _ _ Hq).
    + by rewrite alter_None.
  - by rewrite deref_alter_ne.
Qed.

(** Stores that agree on every frame give the same candidates. *)
Section same_frames.
Variables h h' : list SplitPoint.
Hypothesis Hframes : ∀ q, frame (deref h q) = frame (deref h' q).

Lemma has_vertical_frames q : has_vertical h q = has_vertical h' q.
Proof. apply frame_vertical, Hframes. Qed.

Lemma has_horizontal_frames q : has_horizontal h q = has_horizontal h' q.
Proof. apply frame_horizontal, Hframes. Qed.

Lemma has_cut_frames q : has_cut h q = has_cut h' q.
Proof. unfold has_cut. by rewrite has_vertical_frames, has_horizontal_frames. Qed.

Lemma vertical_xs_frames l : vertical_xs h l = vertical_xs h' l.
Proof.
  unfold vertical_xs. rewrite (filter_ext _ _ has_vertical_frames).
  apply map_ext. intros q. by rewrite (frame_pos _ _ (Hframes q)).
Qed.

Lemma horizontal_ys_frames l : horizontal_ys h l = horizontal_ys h' l.
Proof.
  unfold horizontal_ys. rewrite (filter_ext _ _ has_horizontal_frames).
  apply map_ext. intros q. by rewrite (frame_pos _ _ (Hframes q)).
Qed.

Lemma prior_points_of_frames points i point :
  prior_points_of h points i point = prior_points_of h' points i point.
Proof.
  unfold prior_points_of. apply filter_ext. intros q.
  by rewrite (frame_index _ _ (Hframes q)), (frame_index _ _ (Hframes point)).
Qed.

Lemma sorted_frames (l : list loc) :
  sorted (λ p, index (deref h p)) l = sorted (λ p, index (deref h' p)) l.
Proof.
  unfold sorted. induction l as [|x l IH]; simpl; [done|]. rewrite IH.
  generalize (foldr (sorted_insert (λ p, index (deref h' p))) [] l). intros k.
  induction k as [|y k IHk]; simpl; [done|].
  by rewrite (frame_index _ _ (Hframes x)), (frame_index _ _ (Hframes y)), IHk.
Qed.
End same_frames.

Lemma frame_clip_horizontal_point xs self : frame (clip_horizontal_point xs self) = frame self.
Proof. unfold clip_horizontal_point, frame. by destruct self as [? [[??]|] [?|] ?]. Qed.

Lemma frame_clip_vertical_point ys self : frame (clip_vertical_point ys self) = frame self.
Proof. unfold clip_vertical_point, frame. by destruct self as [? [?|] [[??]|] ?]. Qed.

Lemma alter_fixed (f : SplitPoint → SplitPoint) (p : loc) (h : list SplitPoint) self :
  h !! p = Some self → f self = self → alter f p h = h.
Proof.
  intros Hp Hf. apply list_eq. intros i. rewrite list_lookup_alter.
  case_decide; subst; [by rewrite Hp; simpl; rewrite Hf | done].
Qed.

Lemma clip_horizontal_alter (h : list SplitPoint) prior (point : loc) self :
  h !! point = Some self →
  clip_horizontal h prior point
  = alter (clip_horizontal_point (vertical_xs h prior)) point h.
Proof.
  intros Hp. unfold clip_horizontal, mutate. rewrite (deref_Some _ _ _ Hp).
  destruct (horizontal self) as [[lo hi]|] eqn:Hh.
  - apply list_alter_ext; [|done]. intros x Hx. rewrite Hp in Hx.
    injection Hx as <-. unfold clip_horizontal_point. by rewrite Hh.
  - symmetry. apply (alter_fixed _ _ _ _ Hp). unfold clip_horizontal_point. by rewrite Hh.
Qed.

Lemma clip_vertical_alter (h : list SplitPoint) prior (point : loc) self :
  h !! point = Some self →
  clip_vertical h prior point
  = alter (clip_vertical_point (horizontal_ys h prior)) point h.
Proof.
  intros Hp. unfold clip_vertical, mutate. rewrite (deref_Some _ _ _ Hp).
  destruct (vertical self) as [[lo hi]|] eqn:Hh.
  - apply list_alter_ext; [|done]. intros x Hx. rewrite Hp in Hx.
    injection Hx as <-. unfold clip_vertical_point. by rewrite Hh.
  - symmetry. apply (alter_fixed _ _ _ _ Hp). unfold clip_vertical_point. by rewrite Hh.
Qed.

Lemma clip_points_reset screen_size xs ys self :
  clip_vertical_point ys (clip_horizontal_point xs (reset_bounds screen_size self))
  = clip screen_size xs ys self.
Proof.
  unfold clip_vertical_point, clip_horizontal_point, reset_bounds, clip.
  destruct self as [ps [[??]|] [[??]|] ix]; simpl;
    by rewrite ?_calculate_bounds_tightest.
Qed.

(** One iteration rewrites the point it visits and nothing else. *)
Lemma line_rects_iter_alter screen_size (points : list loc) (h : list SplitPoint)
    (i : nat) (point : loc) :
  points !! i = Some point →
  line_rects_iter screen_size points h i
  = alter (clip screen_size
             (vertical_xs h (prior_points_of h points i point))
             (horizontal_ys h (prior_points_of h points i point))) point h.
Proof.
  intros Hi. unfold line_rects_iter, mutate. rewrite Hi.
  destruct (h !! point) as [self|] eqn:Hp.
  2:{ rewrite !alter_None by done.
      destruct (_ =? _)%nat; [done|].
      unfold clip_vertical, clip_horizontal. rewrite (deref_None _ _ Hp). simpl.
      by rewrite (deref_None _ _ Hp). }
  set (h1 := alter (reset_bounds screen_size) point h).
  assert (Hf1 : ∀ q, frame (deref h1 q) = frame (deref h q)).
  { intros q. apply frame_deref_alter, frame_reset_bounds. }
  rewrite (prior_points_of_frames h1 h Hf1).
  set (prior := prior_points_of h points i point).
  destruct (Nat.eqb_spec (length prior) 0) as [Hlen|Hlen].
  { apply length_zero_iff_nil in Hlen. rewrite Hlen.
    apply list_alter_ext; [|done]. intros x _.
    unfold vertical_xs, horizontal_ys. simpl. by rewrite clip_nil. }
  assert (Hp1 : h1 !! point = Some (reset_bounds screen_size self)).
  { unfold h1. by rewrite list_lookup_alter_eq, Hp. }
  rewrite (clip_horizontal_alter h1 prior point _ Hp1).
  rewrite (vertical_xs_frames h1 h Hf1).
  set (h2 := alter _ point h1).
  assert (Hf2 : ∀ q, frame (deref h2 q) = frame (deref h q)).
  { intros q. unfold h2. rewrite frame_deref_alter; [apply Hf1|].
    apply frame_clip_horizontal_point. }
  assert (Hp2 : h2 !! point = Some (clip_horizontal_point (vertical_xs h prior)
                                      (reset_bounds screen_size self))).
  { unfold h2. by rewrite list_lookup_alter_eq, Hp1. }
  rewrite (clip_vertical_alter h2 prior point _ Hp2).
  rewrite (horizontal_ys_frames h2 h Hf2).
  unfold h2, h1. rewrite !list_alter_alter_eq.
  apply list_alter_ext; [|done]. intros x _. simpl. apply clip_points_reset.
Qed.

(** ** The sort of [calculate_line_rects] *)

Section sorted_facts.
Context {A : Type} (key : A → Z).

Lemma sorted_insert_In x y l : In y (sorted_insert key x l) ↔ y = x ∨ In y l.
Proof.
  induction l as [|z l IH]; simpl; [intuition|].
  destruct (key z <? key x); simpl; [rewrite IH|]; intuition.
Qed.

Lemma sorted_In y l : In y (sorted key l) ↔ In y l.
Proof.
  unfold sorted. induction l as [|x l IH]; simpl; [done|].
  rewrite sorted_insert_In, IH. intuition.
Qed.

Lemma sorted_length l : length (sorted key l) = length l.
Proof.
  unfold sorted. induction l as [|x l IH]; simpl; [done|]. rewrite <- IH.
  generalize (foldr (sorted_insert key) [] l). intros k.
  induction k as [|z k IHk]; simpl; [done|].
  destruct (key z <? key x); simpl; by rewrite ?IHk.
Qed.

Lemma sorted_insert_sorted x l :
  StronglySorted (key_le key) l → StronglySorted (key_le key) (sorted_insert key x l).
Proof.
  induction 1 as [|z l Hl IH Hz]; simpl.
  - repeat constructor.
  - destruct (Z.ltb_spec (key z) (key x)) as [Hlt|Hge].
    + constructor; [done|]. apply Forall_forall. intros y Hy.
      apply list_elem_of_In, sorted_insert_In in Hy. destruct Hy as [->|Hy].
      * unfold key_le. lia.
      * rewrite Forall_forall in Hz. apply Hz. by apply list_elem_of_In.
    + constructor; [by constructor|]. constructor; [done|].
      eapply Forall_impl; [exact Hz|]. unfold key_le. intros; simpl in *. lia.
Qed.

Lemma sorted_sorted l : StronglySorted (key_le key) (sorted key l).
Proof.
  unfold sorted. induction l; simpl; [constructor | by apply sorted_insert_sorted].
Qed.

(** In a sorted list the elements before position [i] are those whose key
    is not larger, and they include every element with a smaller key. *)
Lemma StronglySorted_take l : ∀ (i : nat) x,
  StronglySorted (key_le key) l → l !! i = Some x →
  (∀ y, In y (take i l) → key y ≤ key x) ∧
  (∀ y, In y l → key y < key x → In y (take i l)).
Proof.
  induction l as [|a l IH]; intros i x Hs Hi; [done|].
  apply StronglySorted_inv in Hs as [Hs Ha]. rewrite Forall_forall in Ha.
  destruct i as [|i]; simpl in *.
  - injection Hi as ->. split; [done|]. intros y [->|Hy] Hlt; [lia|].
    apply list_elem_of_In, Ha in Hy. unfold key_le in Hy. lia.
  - destruct (IH i x Hs Hi) as [IH1 IH2]. split.
    + intros y [<-|Hy]; [|by apply IH1].
      apply (Ha x). by eapply list_elem_of_lookup_2.
    + intros y [->|Hy] Hlt; [by left|]. right. by apply IH2.
Qed.
End sorted_facts.

(** ** The recompute as a function of the point set *)

Lemma frame_recompute_point screen_size h l self :
  frame (recompute_point screen_size h l self) = frame self.
Proof. apply frame_clip. Qed.

Lemma recompute_point_same_frame screen_size h l p q :
  frame p = frame q → recompute_point screen_size h l p = recompute_point screen_size h l q.
Proof.
  intros Hf. unfold recompute_point. rewrite (frame_index _ _ Hf).
  by apply clip_same_frame.
Qed.

Lemma recompute_point_idemp screen_size h l self :
  recompute_point screen_size h l (recompute_point screen_size h l self)
  = recompute_point screen_size h l self.
Proof. apply recompute_point_same_frame, frame_recompute_point. Qed.

Lemma recompute_point_frames screen_size h h' l self :
  (∀ q, frame (deref h q) = frame (deref h' q)) →
  recompute_point screen_size h l self = recompute_point screen_size h' l self.
Proof.
  intros Hf. unfold recompute_point.
  assert (Hl : lower_priority h l (index self) = lower_priority h' l (index self)).
  { unfold lower_priority. apply filter_ext. intros q.
    by rewrite (frame_index _ _ (Hf q)). }
  by rewrite Hl, (vertical_xs_frames h h' Hf), (horizontal_ys_frames h h' Hf).
Qed.

Lemma clip_ext screen_size xs xs' ys ys' self :
  (∀ x, In x xs ↔ In x xs') → (∀ y, In y ys ↔ In y ys') →
  clip screen_size xs ys self = clip screen_size xs' ys' self.
Proof.
  intros Hx Hy. unfold clip.
  by rewrite (tightest_lower_ext _ _ _ _ Hx), (tightest_upper_ext _ _ _ _ Hx),
    (tightest_lower_ext _ _ _ _ Hy), (tightest_upper_ext _ _ _ _ Hy).
Qed.

(** In the sorted list the prior points of a point are the points of
    strictly lower index. *)
Lemma prior_points_of_lower (h : list SplitPoint) (l : list loc) (i : nat) (point : loc) q :
  sorted (λ p, index (deref h p)) l !! i = Some point →
  In q (prior_points_of h (sorted (λ p, index (deref h p)) l) i point)
  ↔ In q (lower_priority h l (index (deref h point))).
Proof.
  intros Hi. unfold prior_points_of, lower_priority. rewrite !filter_In.
  destruct (StronglySorted_take (λ p, index (deref h p)) _ i point
              (sorted_sorted _ l) Hi) as [H1 H2].
  split.
  - intros [Hq Hne]. split.
    + apply (sorted_In (λ p, index (deref h p))).
      apply list_elem_of_In, (subseteq_take i), list_elem_of_In, Hq.
    + specialize (H1 q Hq). simpl in H1.
      apply negb_true_iff, Z.eqb_neq in Hne. apply Z.ltb_lt. lia.
  - intros [Hq Hlt]. apply Z.ltb_lt in Hlt. split.
    + apply H2; [|done]. by apply sorted_In.
    + apply negb_true_iff, Z.eqb_neq. lia.
Qed.

Lemma vertical_xs_ext h l l' :
  (∀ q, In q l ↔ In q l') → ∀ x, In x (vertical_xs h l) ↔ In x (vertical_xs h l').
Proof.
  intros Hl x. unfold vertical_xs. rewrite !in_map_iff.
  split; intros (q & Hq & Hin); exists q; (split; [done|]);
    rewrite filter_In in *; by rewrite Hl in *.
Qed.

Lemma horizontal_ys_ext h l l' :
  (∀ q, In q l ↔ In q l') → ∀ y, In y (horizontal_ys h l) ↔ In y (horizontal_ys h l').
Proof.
  intros Hl x. unfold horizontal_ys. rewrite !in_map_iff.
  split; intros (q & Hq & Hin); exists q; (split; [done|]);
    rewrite filter_In in *; by rewrite Hl in *.
Qed.

Section recompute.
Variables (screen_size : Z * Z) (h0 : list SplitPoint) (l : list loc).

Let points : list loc := sorted (λ p, index (deref h0 p)) l.

Lemma visited_frames k h :
  visited screen_size h0 l k h → ∀ q, frame (deref h q) = frame (deref h0 q).
Proof.
  intros Hv q. unfold deref. rewrite !list_lookup_total_alt, (Hv q).
  case_decide; [|done]. destruct (h0 !! q); simpl; [|done].
  apply frame_recompute_point.
Qed.

Lemma line_rects_iter_recompute (h : list SplitPoint) (i : nat) (point : loc) :
  (∀ q, frame (deref h q) = frame (deref h0 q)) →
  points !! i = Some point →
  line_rects_iter screen_size points h i
  = alter (recompute_point screen_size h0 l) point h.
Proof.
  intros Hf Hi. rewrite (line_rects_iter_alter _ _ _ _ _ Hi).
  apply list_alter_ext; [|done]. intros x Hx.
  rewrite (prior_points_of_frames h h0 Hf), (vertical_xs_frames h h0 Hf),
    (horizontal_ys_frames h h0 Hf).
  assert (Hix : index x = index (deref h0 point)).
  { rewrite <- (deref_Some _ _ _ Hx). apply frame_index, Hf. }
  unfold recompute_point. rewrite Hix.
  apply clip_ext.
  - apply vertical_xs_ext. intros q. by apply prior_points_of_lower.
  - apply horizontal_ys_ext. intros q. by apply prior_points_of_lower.
Qed.

Lemma foldl_visited (k : nat) :
  (k ≤ length points)%nat →
  visited screen_size h0 l k (foldl (line_rects_iter screen_size points) h0 (seq 0 k)).
Proof.
  induction k as [|k IH]; intros Hk.
  - intros p. done.
  - rewrite seq_S, foldl_app. simpl.
    assert (Hlt : (k < length points)%nat) by lia.
    destruct (lookup_lt_is_Some_2 _ _ Hlt) as [point Hi].
    specialize (IH ltac:(lia)).
    set (h := foldl _ h0 (seq 0 k)) in *.
    rewrite (line_rects_iter_recompute h k point (visited_frames k h IH) Hi).
    unfold visited in *. fold points in IH |- *.
    intros p. rewrite list_lookup_alter, (take_S_r _ _ _ Hi).
    case_decide as Hp.
    + subst p.
      rewrite (decide_True (P := point ∈ take k points ++ [point]))
        by (apply elem_of_app; right; by apply list_elem_of_singleton).
      rewrite (IH point). case_decide; [|done].
      destruct (h0 !! point); simpl; [|done]. by rewrite recompute_point_idemp.
    + rewrite (IH p). destruct (decide (p ∈ take k points)) as [Hin|Hin].
      * rewrite decide_True; [done|]. apply elem_of_app. by left.
      * rewrite decide_False; [done|]. intros [?|Heq%list_elem_of_singleton]%elem_of_app;
          [done|]. by subst.
Qed.

Lemma foldl_recompute (p : loc) :
  foldl (line_rects_iter screen_size points) h0 (seq 0 (length points)) !! p
  = if decide (p ∈ l)
    then recompute_point screen_size h0 l <$> h0 !! p
    else h0 !! p.
Proof.
  rewrite (foldl_visited (length points) ltac:(lia) p).
  fold points. rewrite firstn_all.
  destruct (decide (p ∈ points)) as [Hin|Hin], (decide (p ∈ l)) as [Hin'|Hin'];
    try done; exfalso;
    rewrite list_elem_of_In in Hin; rewrite list_elem_of_In in Hin';
    unfold points in Hin; rewrite sorted_In in Hin; done.
Qed.
End recompute.

(** The store after [calculate_line_rects], reference by reference. *)
Lemma calculate_line_rects_lookup (s : SplitStateManager) (p : loc) :
  objects (calculate_line_rects s) !! p
  = if decide (p ∈ split_points s)
    then recompute_point (screen_size s) (objects s) (split_points s) <$> objects s !! p
    else objects s !! p.
Proof. apply foldl_recompute. Qed.

Lemma calculate_line_rects_frames (s : SplitStateManager) (q : loc) :
  frame (deref (objects (calculate_line_rects s)) q) = frame (deref (objects s) q).
Proof.
  unfold deref. rewrite !list_lookup_total_alt, calculate_line_rects_lookup.
  case_decide; [|done]. destruct (objects s !! q); simpl; [|done].
  apply frame_recompute_point.
Qed.

(** Recomputing twice is recomputing once. *)
Lemma calculate_line_rects_idemp (s : SplitStateManager) :
  calculate_line_rects (calculate_line_rects s) = calculate_line_rects s.
Proof.
  assert (Hobj : objects (calculate_line_rects (calculate_line_rects s))
                 = objects (calculate_line_rects s)).
  { apply list_eq. intros p.
    rewrite (calculate_line_rects_lookup (calculate_line_rects s)).
    change (split_points (calculate_line_rects s)) with (split_points s).
    change (screen_size (calculate_line_rects s)) with (screen_size s).
    case_decide as Hin; [|done].
    rewrite calculate_line_rects_lookup, decide_True by done.
    destruct (objects s !! p) as [self|]; simpl; [|done]. f_equal.
    rewrite (recompute_point_frames _ _ (objects s))
      by apply calculate_line_rects_frames.
    apply recompute_point_idemp. }
  unfold calculate_line_rects at 1. unfold calculate_line_rects at 1 in Hobj.
  unfold set_objects in *. simpl in *. rewrite Hobj.
  unfold calculate_line_rects, set_objects. done.
Qed.

Lemma calculate_line_rects_length (s : SplitStateManager) :
  length (objects (calculate_line_rects s)) = length (objects s).
Proof.
  assert (Hs : ∀ p : loc, is_Some (objects (calculate_line_rects s) !! p)
                          ↔ is_Some (objects s !! p)).
  { intros p. rewrite calculate_line_rects_lookup. case_decide; [|done].
    by rewrite fmap_is_Some. }
  apply Nat.le_antisymm.
  - destruct (decide (length (objects (calculate_line_rects s)) ≤ length (objects s))%nat)
      as [|Hn]; [done|].
    assert (Hsome : is_Some (objects (calculate_line_rects s) !! length (objects s)))
      by (apply lookup_lt_is_Some; lia).
    apply Hs, lookup_lt_is_Some in Hsome. lia.
  - destruct (decide (length (objects s) ≤ length (objects (calculate_line_rects s)))%nat)
      as [|Hn]; [done|].
    assert (Hsome : is_Some (objects s !! length (objects (calculate_line_rects s))))
      by (apply lookup_lt_is_Some; lia).
    apply Hs, lookup_lt_is_Some in Hsome. lia.
Qed.

(** ** States in which the clipping is up to date *)

Lemma recomputed_objects (s : SplitStateManager) :
  objects (calculate_line_rects s) = objects s → recomputed s.
Proof.
  unfold recomputed. intros Hobj. unfold calculate_line_rects in *.
  destruct s. unfold set_objects in *. simpl in *. by rewrite Hobj.
Qed.

Lemma recomputed_points (s : SplitStateManager) :
  recomputed s ↔
  ∀ (p : loc) self, In p (split_points s) → objects s !! p = Some self →
    recompute_point (screen_size s) (objects s) (split_points s) self = self.
Proof.
  split.
  - intros Hr p self Hin Hp.
    pose proof (calculate_line_rects_lookup s p) as Hl.
    rewrite Hr, decide_True, Hp in Hl by (by apply list_elem_of_In).
    simpl in Hl. congruence.
  - intros Hpts. apply recomputed_objects, list_eq. intros p.
    rewrite calculate_line_rects_lookup. case_decide as Hin; [|done].
    destruct (objects s !! p) as [self|] eqn:Hp; simpl; [|done].
    f_equal. apply (Hpts p); [by apply list_elem_of_In | done].
Qed.

Lemma recomputed_calculate_line_rects (s : SplitStateManager) :
  recomputed (calculate_line_rects s).
Proof. apply calculate_line_rects_idemp. Qed.

Lemma valid_refs_calculate_line_rects (s : SplitStateManager) :
  valid_refs s → valid_refs (calculate_line_rects s).
Proof.
  intros Hv p Hp. rewrite calculate_line_rects_length. by apply Hv.
Qed.

Lemma list_remove_In `{EqDecision A} (x y : A) l : In y (list_remove x l) → In y l.
Proof.
  induction l as [|z l IH]; simpl; [done|].
  case_decide; simpl; intuition.
Qed.

Lemma deref_app_l (h k : list SplitPoint) (p : loc) :
  (p < length h)%nat → deref (h ++ k) p = deref h p.
Proof. intros. unfold deref. by rewrite lookup_total_app_l. Qed.

(** A new point has no cut: it clips nothing. *)
Lemma recompute_point_new screen_size (h : list SplitPoint) (l : list loc) point self :
  (∀ p : loc, In p l → (p < length h)%nat) →
  recompute_point screen_size (h ++ [SplitPoint_init point]) (l ++ [length h]) self
  = recompute_point screen_size h l self.
Proof.
  intros Hv. unfold recompute_point.
  assert (Hnew : deref (h ++ [SplitPoint_init point]) (length h) = SplitPoint_init point).
  { unfold deref. by rewrite list_lookup_total_middle. }
  apply clip_ext; intros x; unfold vertical_xs, horizontal_ys, lower_priority;
    rewrite !in_map_iff; split; intros (q & Hq & Hin); exists q;
    rewrite !filter_In, ?in_app_iff in *; simpl in *.
  - destruct Hin as [[[Hin|[<-|[]]] Hlt] Hcut].
    + rewrite deref_app_l in Hq, Hlt by auto.
      unfold has_vertical in *. rewrite deref_app_l in Hcut by auto. done.
    + unfold has_vertical in Hcut. by rewrite Hnew in Hcut.
  - destruct Hin as [[Hin Hlt] Hcut].
    unfold has_vertical in *. rewrite !deref_app_l by auto. auto.
  - destruct Hin as [[[Hin|[<-|[]]] Hlt] Hcut].
    + rewrite deref_app_l in Hq, Hlt by auto.
      unfold has_horizontal in *. rewrite deref_app_l in Hcut by auto. done.
    + unfold has_horizontal in Hcut. by rewrite Hnew in Hcut.
  - destruct Hin as [[Hin Hlt] Hcut].
    unfold has_horizontal in *. rewrite !deref_app_l by auto. auto.
Qed.

Lemma add_point_recomputed mouse_pos (s : SplitStateManager) :
  valid_refs s → recomputed s →
  valid_refs (add_point mouse_pos s) ∧ recomputed (add_point mouse_pos s).
Proof.
  intros Hv Hr. unfold add_point.
  destruct (first_near s mouse_pos) as [p|].
  { split; [exact Hv|]. apply recomputed_objects. simpl.
    change (objects (calculate_line_rects s) = objects s). by rewrite Hr. }
  split.
  - intros p. simpl. rewrite in_app_iff, length_app. simpl.
    intros [Hp|[<-|[]]]; [|lia]. specialize (Hv p Hp). lia.
  - apply recomputed_points. simpl. intros p self Hin Hp.
    rewrite recompute_point_new by exact Hv.
    apply in_app_iff in Hin. destruct Hin as [Hin|[<-|[]]].
    + rewrite lookup_app_l in Hp by auto.
      by apply (proj1 (recomputed_points s) Hr p).
    + rewrite list_lookup_middle in Hp by done. injection Hp as <-. done.
Qed.

Lemma delete_point_recomputed mouse_pos (s : SplitStateManager) :
  valid_refs s →
  valid_refs (delete_point mouse_pos s) ∧ recomputed (delete_point mouse_pos s).
Proof.
  intros Hv. unfold delete_point. split; [|apply recomputed_calculate_line_rects].
  apply valid_refs_calculate_line_rects.
  destruct (first_near s mouse_pos) as [p|]; [|exact Hv].
  case_decide; intros q Hq; simpl in *; apply Hv; by eapply list_remove_In.
Qed.

Lemma mutate_selected_recomputed f (p : loc) (s : SplitStateManager) :
  valid_refs s →
  valid_refs (calculate_line_rects (set_objects (mutate f p (objects s)) s)) ∧
  recomputed (calculate_line_rects (set_objects (mutate f p (objects s)) s)).
Proof.
  intros Hv. split; [|apply recomputed_calculate_line_rects].
  apply valid_refs_calculate_line_rects. intros q Hq. simpl in *.
  unfold mutate. rewrite length_alter. by apply Hv.
Qed.

Lemma run_recomputed c (s : SplitStateManager) :
  valid_refs s → recomputed s → valid_refs (run c s) ∧ recomputed (run c s).
Proof.
  intros Hv Hr.
  assert (Hflag : ∀ s', split_points s' = split_points s → objects s' = objects s →
            screen_size s' = screen_size s → valid_refs s' ∧ recomputed s').
  { intros s' Hl Hh Hsz. split.
    - intros p. rewrite Hl, Hh. apply Hv.
    - apply recomputed_points. rewrite Hl, Hh, Hsz. by apply recomputed_points. }
  destruct c; simpl.
  - unfold on_mouse_down. destruct press as [[[] ?] []]; simpl; auto.
  - unfold on_mouse_up. destruct (placing s); [by apply add_point_recomputed|].
    destruct (deleting s); [by apply delete_point_recomputed | done].
  - by apply add_point_recomputed.
  - by apply delete_point_recomputed.
  - unfold horizontal_split. destruct (selected_point s); [|done].
    by apply mutate_selected_recomputed.
  - unfold vertical_split. destruct (selected_point s); [|done].
    by apply mutate_selected_recomputed.
  - unfold increment_index. destruct (selected_point s); [|done].
    by apply mutate_selected_recomputed.
  - unfold decrement_index. destruct (selected_point s); [|done].
    by apply mutate_selected_recomputed.
Qed.

Lemma reachable_recomputed size radius (s : SplitStateManager) :
  reachable size radius s → valid_refs s ∧ recomputed s.
Proof.
  induction 1 as [|c s _ [Hv Hr]].
  - split; [by intros p []|]. reflexivity.
  - by apply run_recomputed.
Qed.

(** ** The interval of a point after the recompute *)

Lemma calculate_line_rects_point (s : SplitStateManager) (p : loc) :
  In p (split_points s) →
  let s' := calculate_line_rects s in
  let self := deref (objects s') p in
  self = clip (screen_size s') (clipping_xs s' self) (clipping_ys s' self) self.
Proof.
  intros Hin s' self.
  assert (Hr : recomputed s') by apply recomputed_calculate_line_rects.
  destruct (objects s' !! p) as [x|] eqn:Hp.
  - assert (self = x) as -> by (by apply deref_Some).
    symmetry. by apply (proj1 (recomputed_points s') Hr p).
  - assert (self = SplitPoint_init (0, 0)) as -> by (by apply deref_None).
    reflexivity.
Qed.

Lemma clip_horizontal_bounds screen_size xs ys self lo hi :
  horizontal (clip screen_size xs ys self) = Some (lo, hi) →
  is_max_of lo (0 :: below (rect_x (pos self)) xs) ∧
  is_min_of hi (screen_size.1 :: above (rect_x (pos self)) xs).
Proof.
  unfold clip. simpl. destruct (is_not_None (horizontal self)); [|done].
  intros [= <- <-]. split; [apply foldr_max_is_max | apply foldr_min_is_min].
Qed.

Lemma clip_vertical_bounds screen_size xs ys self lo hi :
  vertical (clip screen_size xs ys self) = Some (lo, hi) →
  is_max_of lo (0 :: below (rect_y (pos self)) ys) ∧
  is_min_of hi (screen_size.2 :: above (rect_y (pos self)) ys).
Proof.
  unfold clip. simpl. destruct (is_not_None (vertical self)); [|done].
  intros [= <- <-]. split; [apply foldr_max_is_max | apply foldr_min_is_min].
Qed.

Lemma is_max_of_below m bound candidates :
  is_max_of m (0 :: below bound candidates) → 0 ≤ bound → m ≤ bound.
Proof.
  intros [[<-|Hin] _] Hb; [done|].
  unfold below in Hin. apply filter_In in Hin as [_ Hlt%Z.ltb_lt]. lia.
Qed.

Lemma is_min_of_above m bound limit candidates :
  is_min_of m (limit :: above bound candidates) → bound < limit → bound < m.
Proof.
  intros [[<-|Hin] _] Hb; [done|].
  unfold above in Hin. by apply filter_In in Hin as [_ Hlt%Z.ltb_lt].
Qed.

(** ** Box subdivision *)

(** Each box that the inner loop of [calculate_boxes] visits is the first
    of the working list, so the loop replaces every box by its
    subdivision, in order. *)
Lemma boxes_loop_flat_map h group (rest acc : list Rect) :
  foldl (boxes_iter h group) (rest ++ acc) rest
  = acc ++ flat_map (λ box, subdivide_box h box (points_in_box h box group)) rest.
Proof.
  revert acc. induction rest as [|box rest IH]; intros acc; simpl.
  - by rewrite app_nil_r.
  - unfold boxes_iter at 2. simpl. rewrite decide_True by done.
    rewrite <- app_assoc, IH, <- app_assoc. done.
Qed.

Lemma boxes_pass_flat_map h group (boxes : list Rect) :
  foldl (boxes_iter h group) boxes boxes
  = flat_map (λ box, subdivide_box h box (points_in_box h box group)) boxes.
Proof.
  pose proof (boxes_loop_flat_map h group boxes []) as H.
  by rewrite app_nil_r in H.
Qed.

(** The index arithmetic of [subdivide_box] walks through the slices. *)
Lemma slices_by_index (cuts : list Z) : ∀ start,
  map (λ ix : nat,
         (if (ix =? 0)%nat then start else cuts !!! (ix - 1)%nat, cuts !!! ix))
      (seq 0 (length cuts))
  = slices start cuts.
Proof.
  induction cuts as [|c rest IH]; intros start; [done|].
  simpl. f_equal. rewrite <- seq_shift, map_map, <- (IH c).
  apply map_ext_in. intros ix _. simpl. rewrite Nat.sub_0_r.
  destruct ix as [|ix]; [done|]. simpl. by rewrite Nat.sub_0_r.
Qed.

Lemma subdivide_box_grid h (box : Rect) (points : list loc) :
  subdivide_box h box points
  = grid (slices (rect_x box) (vertical_xs h points ++ [Rect_right box]))
         (slices (rect_y box) (horizontal_ys h points ++ [Rect_bottom box])).
Proof.
  unfold subdivide_box, grid. fold (vertical_xs h points). fold (horizontal_ys h points).
  set (vc := vertical_xs h points ++ [Rect_right box]).
  set (hc := horizontal_ys h points ++ [Rect_bottom box]).
  rewrite <- (slices_by_index vc (rect_x box)), <- (slices_by_index hc (rect_y box)).
  rewrite flat_map_concat_map, flat_map_concat_map, map_map. f_equal.
  apply map_ext. intros ix. by rewrite map_map.
Qed.

Lemma covering_app boxes boxes' pixel :
  covering (boxes ++ boxes') pixel = covering boxes pixel ++ covering boxes' pixel.
Proof. unfold covering. apply List.filter_app. Qed.

(** A pixel is in as many boxes of a grid as there are columns that hold
    its abscissa times rows that hold its ordinate. *)
Lemma covering_grid columns rows pixel :
  length (covering (grid columns rows) pixel)
  = (length (List.filter (in_slice pixel.1) columns)
     * length (List.filter (in_slice pixel.2) rows))%nat.
Proof.
  unfold grid. induction columns as [|c columns IH]; simpl; [done|].
  rewrite covering_app, length_app, IH.
  assert (Hrow : length (covering (map (λ r, mkRect c.1 r.1 (c.2 - c.1) (r.2 - r.1)) rows) pixel)
                 = if in_slice pixel.1 c
                   then length (List.filter (in_slice pixel.2) rows) else 0%nat).
  { clear IH. induction rows as [|r rows IHr]; simpl; [by destruct (in_slice _ c)|].
    unfold covering in *. simpl.
    assert (Hc : Rect_covers (mkRect c.1 r.1 (c.2 - c.1) (r.2 - r.1)) pixel
                 = in_slice pixel.1 c && in_slice pixel.2 r).
    { unfold Rect_covers, in_slice, Rect_right, Rect_bottom. simpl.
      replace (c.1 + (c.2 - c.1)) with c.2 by lia.
      replace (r.1 + (r.2 - r.1)) with r.2 by lia.
      by rewrite andb_assoc. }
    rewrite Hc. destruct (in_slice pixel.1 c), (in_slice pixel.2 r); simpl;
      rewrite IHr; done. }
  rewrite Hrow. destruct (in_slice pixel.1 c); simpl; lia.
Qed.

(** Ascending cuts between [start] and [stop] slice that span exactly. *)
Lemma slices_cover (v stop : Z) (cuts : list Z) : ∀ start,
  StronglySorted Z.le cuts →
  (∀ c, In c cuts → start ≤ c ≤ stop) →
  length (List.filter (in_slice v) (slices start (cuts ++ [stop])))
  = if in_slice v (start, stop) then 1%nat else 0%nat.
Proof.
  induction cuts as [|c rest IH]; intros start Hs Hin; simpl.
  - by destruct (in_slice v (start, stop)).
  - apply StronglySorted_inv in Hs as [Hs Hc]. rewrite Forall_forall in Hc.
    assert (Hrest : ∀ c', In c' rest → c ≤ c' ≤ stop).
    { intros c' Hc'. split; [by apply Hc, list_elem_of_In|].
      apply Hin. by right. }
    specialize (IH c Hs Hrest).
    destruct (Hin c (or_introl eq_refl)) as [Hlo Hhi].
    unfold in_slice in *. simpl in *.
    destruct (Z.leb_spec start v), (Z.ltb_spec v c), (Z.leb_spec c v),
      (Z.ltb_spec v stop); simpl in *; rewrite ?IH; simpl; try lia.
Qed.

Lemma StronglySorted_map_filter {A} (f : A → Z) (a : A → bool) (l : list A) :
  StronglySorted Z.le (map f l) → StronglySorted Z.le (map f (List.filter a l)).
Proof.
  induction l as [|x l IH]; simpl; [done|].
  intros [Hs Hx]%StronglySorted_inv. destruct (a x); simpl; [|by apply IH].
  constructor; [by apply IH|].
  rewrite Forall_forall in *. intros y Hy. apply Hx.
  rewrite list_elem_of_In, in_map_iff in *.
  destruct Hy as (z & <- & Hz). exists z. split; [done|].
  by apply filter_In in Hz as [Hz _].
Qed.

Lemma filter_filter_comm {A} (a b : A → bool) (l : list A) :
  List.filter a (List.filter b l) = List.filter b (List.filter a l).
Proof.
  induction l as [|x l IH]; simpl; [done|].
  destruct (a x) eqn:Ha, (b x) eqn:Hb; simpl; rewrite ?Ha, ?Hb, IH; done.
Qed.

(** One box, subdivided by the points of a group that it contains, is
    tiled by its sub-boxes when the cuts of the group are ascending. *)
Lemma subdivide_box_tiles h (box : Rect) (group : list loc) :
  StronglySorted Z.le (vertical_xs h group) →
  StronglySorted Z.le (horizontal_ys h group) →
  tiles box (subdivide_box h box (points_in_box h box group)).
Proof.
  intros Hxs Hys pixel. rewrite subdivide_box_grid, covering_grid.
  assert (Hin : ∀ p, In p (points_in_box h box group) →
            rect_x box ≤ rect_x (pos (deref h p)) ≤ Rect_right box ∧
            rect_y box ≤ rect_y (pos (deref h p)) ≤ Rect_bottom box).
  { intros p [_ Hc]%filter_In. unfold Rect_contains, Rect_right, Rect_bottom in *.
    rewrite !andb_true_iff, !Z.leb_le, !Z.gtb_ltb, !Z.ltb_lt in Hc. lia. }
  rewrite (slices_cover pixel.1 (Rect_right box)), (slices_cover pixel.2 (Rect_bottom box)).
  - unfold Rect_covers, in_slice. simpl.
    destruct (rect_x box <=? pixel.1), (pixel.1 <? Rect_right box),
      (rect_y box <=? pixel.2), (pixel.2 <? Rect_bottom box); done.
  - unfold horizontal_ys, points_in_box. rewrite filter_filter_comm.
    by apply StronglySorted_map_filter.
  - intros c (p & <- & [Hp _]%filter_In)%in_map_iff. by apply Hin.
  - unfold vertical_xs, points_in_box. rewrite filter_filter_comm.
    by apply StronglySorted_map_filter.
  - intros c (p & <- & [Hp _]%filter_In)%in_map_iff. by apply Hin.
Qed.

Lemma flat_map_tiles (f : Rect → list Rect) (canvas : Rect) (boxes : list Rect) :
  (∀ box, tiles box (f box)) → tiles canvas boxes → tiles canvas (flat_map f boxes).
Proof.
  intros Hf Hb pixel. rewrite <- (Hb pixel). clear Hb.
  induction boxes as [|box boxes IH]; simpl; [done|].
  rewrite covering_app, length_app, IH, (Hf box pixel).
  unfold covering. simpl. by destruct (Rect_covers box pixel).
Qed.

(** X16.  The guarantee of the subdivision, under the condition that the
    code leaves to the order of placement: when the cuts of every group are
    ascending, the boxes of [calculate_boxes] tile the canvas (every pixel
    of the canvas is in exactly one box, no pixel off the canvas is in
    any). *)
Theorem calculate_boxes_tiles_ascending (s : SplitStateManager) :
  cuts_ascending s →
  tiles (mkRect 0 0 (screen_size s).1 (screen_size s).2) (calculate_boxes s).
Proof.
  unfold cuts_ascending, calculate_boxes.
  set (canvas := mkRect 0 0 _ _).
  assert (H0 : tiles canvas [canvas]).
  { intros pixel. unfold covering. simpl. by destruct (Rect_covers canvas pixel). }
  revert H0. generalize [canvas]. generalize (group_points s).
  intros groups. induction groups as [|group groups IH]; intros boxes Hb Hasc; [done|].
  simpl. apply IH.
  - rewrite boxes_pass_flat_map. apply flat_map_tiles; [|done].
    intros box. destruct (Hasc group (or_introl eq_refl)).
    by apply subdivide_box_tiles.
  - intros g Hg. apply Hasc. by right.
Qed.

Lemma tiles_pairwise_disjoint (canvas : Rect) (boxes : list Rect) :
  tiles canvas boxes → pairwise_disjoint boxes.
Proof.
  intros Ht i j a b Hij Hi Hj (pixel & Ha & Hb).
  specialize (Ht pixel).
  assert (Hlen : (2 ≤ length (covering boxes pixel))%nat).
  { clear Ht. revert i j Hij Hi Hj.
    induction boxes as [|r boxes IH]; intros i j Hij Hi Hj; [done|].
    unfold covering in *. simpl.
    destruct i as [|i], j as [|j]; simpl in *; try done.
    - injection Hi as ->. rewrite Ha. simpl.
      assert (In b (List.filter (λ r, Rect_covers r pixel) boxes)).
      { apply filter_In. split; [|done]. by eapply list_elem_of_In, list_elem_of_lookup_2. }
      destruct (List.filter _ boxes); simpl; [done|lia].
    - injection Hj as ->. rewrite Hb. simpl.
      assert (In a (List.filter (λ r, Rect_covers r pixel) boxes)).
      { apply filter_In. split; [|done]. by eapply list_elem_of_In, list_elem_of_lookup_2. }
      destruct (List.filter _ boxes); simpl; [done|lia].
    - assert (i ≠ j) by congruence.
      specialize (IH i j ltac:(done) Hi Hj).
      destruct (Rect_covers r pixel); simpl; lia. }
  destruct (Rect_covers canvas pixel); lia.
Qed.

(** ** Properties of the specification *)

(** C1.  The tiling guarantee fails when two cuts of one group are not
    placed in ascending order: with vertical cuts at x = 70 and then at
    x = 30, both of index 0, [calculate_boxes] returns a first box of
    columns 0..69, a box of width -40 and a box of columns 30..99, and the
    first and the last share the pixel (50,50). *)
Theorem calculate_boxes_unsorted_cuts_overlap :
  calculate_boxes scenario_unsorted
  = [mkRect 0 0 70 100; mkRect 70 0 (-40) 100; mkRect 30 0 70 100]
  ∧ ¬ pairwise_disjoint (calculate_boxes scenario_unsorted)
  ∧ ¬ tiles (mkRect 0 0 100 100) (calculate_boxes scenario_unsorted).
Proof.
  assert (Hd : ¬ pairwise_disjoint (calculate_boxes scenario_unsorted)).
  { intros Hd.
    apply (Hd 0%nat 2%nat (mkRect 0 0 70 100) (mkRect 30 0 70 100));
      [done | reflexivity | reflexivity |].
    by exists (50, 50). }
  split; [reflexivity|]. split; [exact Hd|].
  intros Ht. apply Hd. by eapply tiles_pairwise_disjoint.
Qed.

(** C2.  After [calculate_line_rects], a point of [split_points] keeps
    the cuts it had, and the horizontal interval [(lo, hi)] of a point with
    a horizontal cut is: [lo] the maximum of 0 and of the x-coordinates,
    strictly below the point's own, of the points of strictly lower index
    that have a vertical cut; [hi] the minimum of the canvas width and of
    those x-coordinates that are strictly above the point's own.  The
    same holds of the vertical interval, with the y-coordinates of the
    points of strictly lower index that have a horizontal cut and the
    canvas height. *)
Theorem calculate_line_rects_intervals (s : SplitStateManager) (p : loc) :
  In p (split_points s) →
  let s' := calculate_line_rects s in
  let self := deref (objects s') p in
  frame self = frame (deref (objects s) p) ∧
  (∀ lo hi, horizontal self = Some (lo, hi) →
     is_max_of lo (0 :: below (rect_x (pos self)) (clipping_xs s' self)) ∧
     is_min_of hi ((screen_size s).1 :: above (rect_x (pos self)) (clipping_xs s' self))) ∧
  (∀ lo hi, vertical self = Some (lo, hi) →
     is_max_of lo (0 :: below (rect_y (pos self)) (clipping_ys s' self)) ∧
     is_min_of hi ((screen_size s).2 :: above (rect_y (pos self)) (clipping_ys s' self))).
Proof.
  intros Hin s' self.
  pose proof (calculate_line_rects_point s p Hin) as Hself. cbv zeta in Hself.
  split; [apply calculate_line_rects_frames|].
  split; intros lo hi Hiv; unfold self, s' in Hiv; rewrite Hself in Hiv.
  - apply (clip_horizontal_bounds _ _ _ _ _ _ Hiv).
  - apply (clip_vertical_bounds _ _ _ _ _ _ Hiv).
Qed.

Lemma calculate_line_rects_intervals_witness :
  In 1%nat (split_points scenario_T) ∧
  let s' := calculate_line_rects scenario_T in
  let self := deref (objects s') 1%nat in
  frame self = frame (deref (objects scenario_T) 1%nat) ∧
  (∀ lo hi, horizontal self = Some (lo, hi) →
     is_max_of lo (0 :: below (rect_x (pos self)) (clipping_xs s' self)) ∧
     is_min_of hi ((screen_size scenario_T).1 :: above (rect_x (pos self)) (clipping_xs s' self))) ∧
  (∀ lo hi, vertical self = Some (lo, hi) →
     is_max_of lo (0 :: below (rect_y (pos self)) (clipping_ys s' self)) ∧
     is_min_of hi ((screen_size scenario_T).2 :: above (rect_y (pos self)) (clipping_ys s' self))).
Proof.
  split; [vm_compute; tauto|].
  apply (calculate_line_rects_intervals scenario_T 1%nat). vm_compute; tauto.
Defined.

(** C3.  On the 100x100 canvas with A at (50,50), horizontal cut, index 0
    and B at (50,80), vertical cut, index 1, whatever intervals the two
    cuts held before and in whichever order the two points were placed:
    [calculate_line_rects] gives A the horizontal interval (0,100) and B
    the vertical interval (50,100), and [calculate_boxes] returns the
    boxes (0,0,100,50), (0,50,50,50) and (50,50,50,50), in that order. *)
Theorem scenario_T_lines_and_boxes (iv_a iv_b : Z * Z) (radius : Z) (order : list loc)
    (selected : option loc) :
  order = [0%nat; 1%nat] ∨ order = [1%nat; 0%nat] →
  let A := mkSplitPoint (mkRect 50 50 0 0) (Some iv_a) None 0 in
  let B := mkSplitPoint (mkRect 50 80 0 0) None (Some iv_b) 1 in
  let s := mkManager (100, 100) radius false false [A; B] order selected in
  let s' := calculate_line_rects s in
  horizontal (deref (objects s') 0%nat) = Some (0, 100) ∧
  vertical (deref (objects s') 1%nat) = Some (50, 100) ∧
  calculate_boxes s'
  = [mkRect 0 0 100 50; mkRect 0 50 50 50; mkRect 50 50 50 50].
Proof.
  intros [-> | ->]; repeat split; reflexivity.
Qed.

Lemma scenario_T_lines_and_boxes_witness :
  let s' := calculate_line_rects scenario_T in
  horizontal (deref (objects s') 0%nat) = Some (0, 100) ∧
  vertical (deref (objects s') 1%nat) = Some (50, 100) ∧
  calculate_boxes s'
  = [mkRect 0 0 100 50; mkRect 0 50 50 50; mkRect 50 50 50 50].
Proof.
  exact (scenario_T_lines_and_boxes (0, 100) (50, 100) 5 [0%nat; 1%nat] (Some 1%nat)
           (or_introl eq_refl)).
Defined.

Lemma filter_none {A} (f : A → bool) (l : list A) :
  (∀ x, In x l → f x = false) → List.filter f l = [].
Proof.
  induction l as [|x l IH]; simpl; intros Hf; [done|].
  rewrite (Hf x) by auto. apply IH. intros; apply Hf; auto.
Qed.

(** C4.  When no point of [split_points] has a cut (and so when there is
    no point at all), [calculate_boxes] returns the canvas rectangle
    (0, 0, width, height) and nothing else. *)
Theorem calculate_boxes_no_cut (s : SplitStateManager) :
  (∀ p, In p (split_points s) → has_cut (objects s) p = false) →
  calculate_boxes s = [mkRect 0 0 (screen_size s).1 (screen_size s).2].
Proof.
  intros Hcut. unfold calculate_boxes, group_points.
  rewrite (filter_none _ _ Hcut). simpl.
  unfold boxes_iter, points_in_box, subdivide_box, Rect_right, Rect_bottom. simpl.
  rewrite decide_True by done. simpl.
  by rewrite !Z.sub_0_r.
Qed.

Lemma calculate_boxes_no_cut_witness :
  (∀ p, In p (split_points (add_point (20, 30) fresh_manager)) →
        has_cut (objects (add_point (20, 30) fresh_manager)) p = false) ∧
  calculate_boxes (add_point (20, 30) fresh_manager) = [mkRect 0 0 100 100].
Proof.
  assert (H : ∀ p, In p (split_points (add_point (20, 30) fresh_manager)) →
                   has_cut (objects (add_point (20, 30) fresh_manager)) p = false).
  { intros p [<-|[]]. reflexivity. }
  split; [exact H|].
  exact (calculate_boxes_no_cut (add_point (20, 30) fresh_manager) H).
Defined.

(** C5, as the claim has it, fails.  In [scenario_edge] the box
    (0,0,50,100) is one of the working rectangles, and the point at (50,30)
    lies on its right edge: the inclusive test counts it as inside, but it
    is not among the points handed to [subdivide_box], and the box is
    returned whole. *)
Lemma points_in_box_not_inclusive :
  let h := objects scenario_edge in
  let box := mkRect 0 0 50 100 in
  calculate_boxes scenario_edge = [box; mkRect 50 0 50 30; mkRect 50 30 50 70] ∧
  group_points scenario_edge = [[0%nat]; [1%nat]] ∧
  List.filter (λ p, inside_inclusive box (deref h p)) [1%nat] = [1%nat] ∧
  points_in_box h box [1%nat] = [] ∧
  points_in_box h box [1%nat]
  ≠ List.filter (λ p, inside_inclusive box (deref h p)) [1%nat].
Proof. repeat split; try (vm_compute; reflexivity). vm_compute. discriminate. Qed.

Lemma Rect_contains_point (box : Rect) (self : SplitPoint) :
  rect_w (pos self) = 0 → rect_h (pos self) = 0 →
  Rect_contains box (pos self) = inside_half_open box self.
Proof.
  intros Hw Hh. unfold Rect_contains, inside_half_open, Rect_right, Rect_bottom.
  rewrite Hw, Hh, !Z.add_0_r, !Z.geb_leb, !Z.gtb_ltb.
  destruct (rect_x box <=? rect_x (pos self)) eqn:H1,
           (rect_y box <=? rect_y (pos self)) eqn:H2,
           (rect_x (pos self) <? rect_x box + rect_w box) eqn:H3,
           (rect_y (pos self) <? rect_y box + rect_h box) eqn:H4,
           (rect_x (pos self) <=? rect_x box + rect_w box) eqn:H5,
           (rect_y (pos self) <=? rect_y box + rect_h box) eqn:H6;
    try reflexivity; exfalso;
    rewrite ?Z.leb_le, ?Z.leb_gt, ?Z.ltb_lt, ?Z.ltb_ge in *; lia.
Qed.

(** C5, amended.  The points handed to [subdivide_box] for a box and a
    group are exactly the points of the group whose position passes the
    half-open test: a position on the left or top edge of the box counts
    as inside, a position on its right or bottom edge does not.  (The
    position of a point is the 0x0 rectangle that [SplitPoint.__init__]
    builds.) *)
Theorem points_in_box_half_open (h : list SplitPoint) (box : Rect) (group : list loc) :
  (∀ p, In p group →
        rect_w (pos (deref h p)) = 0 ∧ rect_h (pos (deref h p)) = 0) →
  points_in_box h box group
  = List.filter (λ p, inside_half_open box (deref h p)) group
  ∧ ∀ p, In p (points_in_box h box group) ↔
         In p group ∧
         rect_x box ≤ rect_x (pos (deref h p)) < Rect_right box ∧
         rect_y box ≤ rect_y (pos (deref h p)) < Rect_bottom box.
Proof.
  intros Hpt.
  assert (Heq : points_in_box h box group
                = List.filter (λ p, inside_half_open box (deref h p)) group).
  { unfold points_in_box. apply filter_ext_in. intros p Hp.
    destruct (Hpt p Hp). by apply Rect_contains_point. }
  split; [exact Heq|]. intros p. rewrite Heq, filter_In.
  unfold inside_half_open.
  rewrite !andb_true_iff, !Z.leb_le, !Z.ltb_lt. tauto.
Qed.

Lemma points_in_box_half_open_witness :
  (∀ p, In p [1%nat] →
        rect_w (pos (deref (objects scenario_edge) p)) = 0 ∧
        rect_h (pos (deref (objects scenario_edge) p)) = 0) ∧
  points_in_box (objects scenario_edge) (mkRect 50 0 50 100) [1%nat] = [1%nat].
Proof.
  assert (H : ∀ p, In p [1%nat] →
                rect_w (pos (deref (objects scenario_edge) p)) = 0 ∧
                rect_h (pos (deref (objects scenario_edge) p)) = 0).
  { intros p [<-|[]]. split; reflexivity. }
  split; [exact H|].
  rewrite (proj1 (points_in_box_half_open (objects scenario_edge)
                    (mkRect 50 0 50 100) [1%nat] H)).
  reflexivity.
Defined.








Lemma frame_toggle_horizontal width self :
  is_not_None (horizontal (toggle_horizontal width self))
  = negb (is_not_None (horizontal self)).
Proof. unfold toggle_horizontal. by destruct (horizontal self). Qed.

Lemma frame_toggle_vertical height self :
  is_not_None (vertical (toggle_vertical height self))
  = negb (is_not_None (vertical self)).
Proof. unfold toggle_vertical. by destruct (vertical self). Qed.

(** A command on the selected point: the mutation, then the recompute. *)
Lemma mutate_selected_lookup f (p : loc) (s : SplitStateManager) self :
  objects s !! p = Some self →
  let s' := calculate_line_rects (set_objects (mutate f p (objects s)) s) in
  selected_point s' = selected_point s ∧
  ∃ self', objects s' !! p = Some self' ∧ frame self' = frame (f self).
Proof.
  intros Hp s'. split; [done|].
  assert (Hp1 : mutate f p (objects s) !! p = Some (f self)).
  { unfold mutate. by rewrite list_lookup_alter_eq, Hp. }
  assert (Hlen : is_Some (objects s' !! p)).
  { apply lookup_lt_is_Some. unfold s'. rewrite calculate_line_rects_length.
    simpl. apply lookup_lt_is_Some. by rewrite Hp1. }
  destruct Hlen as [self' Hself']. exists self'. split; [done|].
  rewrite <- (deref_Some _ _ _ Hself'). unfold s'.
  rewrite calculate_line_rects_frames. simpl. by rewrite (deref_Some _ _ _ Hp1).
Qed.

Lemma horizontal_split_selected (s : SplitStateManager) (p : loc) self :
  selected_point s = Some p → objects s !! p = Some self →
  selected_point (horizontal_split s) = Some p ∧
  ∃ self', objects (horizontal_split s) !! p = Some self' ∧
           is_not_None (horizontal self') = negb (is_not_None (horizontal self)).
Proof.
  intros Hsel Hp. unfold horizontal_split. rewrite Hsel.
  destruct (mutate_selected_lookup (toggle_horizontal (screen_size s).1) p s self Hp)
    as [Hsel1 (self1 & Hp1 & Hf1)].
  split; [by rewrite Hsel1|]. exists self1. split; [done|].
  apply frame_horizontal in Hf1. by rewrite Hf1, frame_toggle_horizontal.
Qed.

Lemma vertical_split_selected (s : SplitStateManager) (p : loc) self :
  selected_point s = Some p → objects s !! p = Some self →
  selected_point (vertical_split s) = Some p ∧
  ∃ self', objects (vertical_split s) !! p = Some self' ∧
           is_not_None (vertical self') = negb (is_not_None (vertical self)).
Proof.
  intros Hsel Hp. unfold vertical_split. rewrite Hsel.
  destruct (mutate_selected_lookup (toggle_vertical (screen_size s).2) p s self Hp)
    as [Hsel1 (self1 & Hp1 & Hf1)].
  split; [by rewrite Hsel1|]. exists self1. split; [done|].
  apply frame_vertical in Hf1. by rewrite Hf1, frame_toggle_vertical.
Qed.

(** C7.  On a selected point whose horizontal cut is off, a first
    [horizontal_split] turns the cut on, with whatever interval the
    recompute clips it to, and a second one sets [horizontal] back to
    [None]; likewise for [vertical_split] and [vertical]. *)
Theorem toggle_twice_None (s : SplitStateManager) (p : loc) (self : SplitPoint) :
  selected_point s = Some p → objects s !! p = Some self →
  (horizontal self = None →
     is_Some (horizontal (deref (objects (horizontal_split s)) p)) ∧
     horizontal (deref (objects (horizontal_split (horizontal_split s))) p) = None) ∧
  (vertical self = None →
     is_Some (vertical (deref (objects (vertical_split s)) p)) ∧
     vertical (deref (objects (vertical_split (vertical_split s))) p) = None).
Proof.
  intros Hsel Hp. split; intros Hoff.
  - destruct (horizontal_split_selected s p self Hsel Hp)
      as [Hsel1 (self1 & Hp1 & Hf1)].
    destruct (horizontal_split_selected _ p self1 Hsel1 Hp1)
      as [_ (self2 & Hp2 & Hf2)].
    rewrite (deref_Some _ _ _ Hp1), (deref_Some _ _ _ Hp2).
    rewrite Hf1, Hoff in Hf2. rewrite Hoff in Hf1. simpl in *.
    split; [by destruct (horizontal self1) | by destruct (horizontal self2)].
  - destruct (vertical_split_selected s p self Hsel Hp)
      as [Hsel1 (self1 & Hp1 & Hf1)].
    destruct (vertical_split_selected _ p self1 Hsel1 Hp1)
      as [_ (self2 & Hp2 & Hf2)].
    rewrite (deref_Some _ _ _ Hp1), (deref_Some _ _ _ Hp2).
    rewrite Hf1, Hoff in Hf2. rewrite Hoff in Hf1. simpl in *.
    split; [by destruct (vertical self1) | by destruct (vertical self2)].
Qed.

Lemma toggle_twice_None_witness :
  let s := scenario_T in
  selected_point s = Some 1%nat ∧
  objects s !! 1%nat = Some (deref (objects s) 1%nat) ∧
  horizontal (deref (objects s) 1%nat) = None ∧
  is_Some (horizontal (deref (objects (horizontal_split s)) 1%nat)) ∧
  horizontal (deref (objects (horizontal_split (horizontal_split s))) 1%nat) = None.
Proof.
  intros s.
  assert (Hsel : selected_point s = Some 1%nat) by (vm_compute; reflexivity).
  assert (Hp : objects s !! 1%nat = Some (deref (objects s) 1%nat))
    by (vm_compute; reflexivity).
  assert (Hoff : horizontal (deref (objects s) 1%nat) = None)
    by (vm_compute; reflexivity).
  split; [exact Hsel|]. split; [exact Hp|]. split; [exact Hoff|].
  exact (proj1 (toggle_twice_None s 1%nat _ Hsel Hp) Hoff).
Defined.

Lemma find_snoc {A} (f : A → bool) (l : list A) (n : A) :
  (∀ q, In q l → f q = true → q = n) → f n = true →
  List.find f (l ++ [n]) = Some n.
Proof.
  intros Hl Hn. induction l as [|q l IH]; simpl.
  - by rewrite Hn.
  - destruct (f q) eqn:Hq.
    + f_equal. apply Hl; [by left | done].
    + apply IH. intros q' Hin. apply Hl. by right.
Qed.

Lemma distance_to_le_init point radius :
  0 ≤ radius → distance_to_le (SplitPoint_init point) point radius = true.
Proof.
  intros Hr. unfold distance_to_le, distance_sq. simpl.
  rewrite !Z.sub_diag. simpl.
  apply andb_true_iff. split; apply Z.leb_le; nia.
Qed.

(** C8.  When [add_point] at a position finds no point within the pick
    radius, it creates one there and selects it; run again at once at the
    same position it finds that point, selects it again and creates
    nothing: the state is the same as after the first run. *)
Theorem add_point_twice (s : SplitStateManager) (mouse_pos : Z * Z) :
  0 ≤ dot_radius s →
  first_near s mouse_pos = None →
  let s1 := add_point mouse_pos s in
  let created := length (objects s) in
  split_points s1 = split_points s ++ [created] ∧
  deref (objects s1) created = SplitPoint_init mouse_pos ∧
  selected_point s1 = Some created ∧
  first_near s1 mouse_pos = Some created ∧
  add_point mouse_pos s1 = s1.
Proof.
  intros Hr Hnone s1 created.
  assert (Hs1 : s1 = set_selected_point (Some created)
                  (set_placing false
                     (set_split_points (split_points s ++ [created])
                        (set_objects (objects s ++ [SplitPoint_init mouse_pos]) s)))).
  { unfold s1, add_point. rewrite Hnone. simpl. by rewrite last_snoc. }
  assert (Hnew : deref (objects s1) created = SplitPoint_init mouse_pos).
  { rewrite Hs1. simpl. unfold deref, created. by rewrite list_lookup_total_middle. }
  assert (Hfind : first_near s1 mouse_pos = Some created).
  { unfold first_near. rewrite Hs1. simpl. apply find_snoc.
    - intros q Hq Hnear. destruct (decide (q = created)) as [|Hne]; [done|].
      exfalso. unfold first_near in Hnone.
      pose proof (find_none _ _ Hnone q Hq) as Hfar. simpl in Hfar.
      assert (Hd : deref (objects s ++ [SplitPoint_init mouse_pos]) q = deref (objects s) q).
      { unfold deref. rewrite !list_lookup_total_alt.
        destruct (decide (q < length (objects s))%nat).
        - by rewrite lookup_app_l.
        - rewrite !lookup_ge_None_2; [done| |]; rewrite ?length_app; simpl;
            unfold created in Hne; lia. }
      rewrite Hd in Hnear. congruence.
    - unfold deref, created. rewrite list_lookup_total_middle by done.
      by apply distance_to_le_init. }
  repeat split; try done.
  - by rewrite Hs1.
  - by rewrite Hs1.
  - unfold add_point. rewrite Hfind. by rewrite Hs1.
Qed.

Lemma add_point_twice_witness :
  0 ≤ dot_radius scenario_T ∧
  first_near scenario_T (10, 10) = None ∧
  add_point (10, 10) (add_point (10, 10) scenario_T) = add_point (10, 10) scenario_T.
Proof.
  assert (Hr : 0 ≤ dot_radius scenario_T) by (vm_compute; discriminate).
  assert (Hn : first_near scenario_T (10, 10) = None) by reflexivity.
  split; [exact Hr|]. split; [exact Hn|].
  exact (proj2 (proj2 (proj2 (proj2 (add_point_twice scenario_T (10, 10) Hr Hn))))).
Defined.

Lemma run_without_selection (s : SplitStateManager) (c : command) :
  selected_point s = None → acts_on_selection c = true → run c s = s.
Proof.
  intros Hsel Hc. destruct c; try discriminate; simpl;
    unfold horizontal_split, vertical_split, increment_index, decrement_index;
    by rewrite Hsel.
Qed.

(** C9.  When [delete_point] deletes the selected point, it leaves
    nothing selected, and any sequence of toggle and index commands run
    after it leaves the whole state as it is. *)
Theorem delete_selected_point (s : SplitStateManager) (mouse_pos : Z * Z) (p : loc)
    (cs : list command) :
  first_near s mouse_pos = Some p →
  selected_point s = Some p →
  forallb acts_on_selection cs = true →
  let s' := delete_point mouse_pos s in
  split_points s' = list_remove p (split_points s) ∧
  selected_point s' = None ∧
  run_all cs s' = s'.
Proof.
  intros Hnear Hsel Hcs s'.
  assert (Hl : split_points s' = list_remove p (split_points s)).
  { unfold s', delete_point. rewrite Hnear. simpl. rewrite Hsel.
    by rewrite decide_True. }
  assert (Hnone : selected_point s' = None).
  { unfold s', delete_point. rewrite Hnear. simpl. rewrite Hsel.
    by rewrite decide_True. }
  repeat split; [done..|].
  clearbody s'. unfold run_all.
  induction cs as [|c cs IH]; simpl; [done|].
  simpl in Hcs. apply andb_true_iff in Hcs as [Hc Hcs].
  rewrite (run_without_selection s' c Hnone Hc). by apply IH.
Qed.

Lemma delete_selected_point_witness :
  first_near scenario_T (52, 79) = Some 1%nat ∧
  selected_point scenario_T = Some 1%nat ∧
  selected_point (delete_point (52, 79) scenario_T) = None ∧
  run_all [HorizontalSplit; IncrementIndex; VerticalSplit; DecrementIndex]
          (delete_point (52, 79) scenario_T)
  = delete_point (52, 79) scenario_T.
Proof.
  assert (Hn : first_near scenario_T (52, 79) = Some 1%nat) by reflexivity.
  assert (Hs : selected_point scenario_T = Some 1%nat) by reflexivity.
  split; [exact Hn|]. split; [exact Hs|].
  exact (proj2 (delete_selected_point scenario_T (52, 79) 1%nat
                  [HorizontalSplit; IncrementIndex; VerticalSplit; DecrementIndex]
                  Hn Hs eq_refl)).
Defined.

(** C10.  After [calculate_line_rects], the horizontal interval
    [(lo, hi)] of a point of [split_points] whose x-coordinate lies on the
    canvas, [0 <= x < width], contains that coordinate: [lo <= x < hi].
    Likewise for its vertical interval, its y-coordinate and the canvas
    height. *)
Theorem calculate_line_rects_interval_contains_anchor (s : SplitStateManager) (p : loc) :
  In p (split_points s) →
  let s' := calculate_line_rects s in
  let self := deref (objects s') p in
  (∀ lo hi, horizontal self = Some (lo, hi) →
     0 ≤ rect_x (pos self) < (screen_size s).1 →
     lo ≤ rect_x (pos self) < hi) ∧
  (∀ lo hi, vertical self = Some (lo, hi) →
     0 ≤ rect_y (pos self) < (screen_size s).2 →
     lo ≤ rect_y (pos self) < hi).
Proof.
  intros Hin s' self.
  pose proof (calculate_line_rects_point s p Hin) as Hself. cbv zeta in Hself.
  split; intros lo hi Hiv [H0 Hw]; unfold self, s' in Hiv; rewrite Hself in Hiv.
  - apply clip_horizontal_bounds in Hiv as [Hlo Hhi]. split.
    + by eapply is_max_of_below.
    + by eapply is_min_of_above.
  - apply clip_vertical_bounds in Hiv as [Hlo Hhi]. split.
    + by eapply is_max_of_below.
    + by eapply is_min_of_above.
Qed.

Lemma calculate_line_rects_interval_contains_anchor_witness :
  In 1%nat (split_points scenario_T) ∧
  let self := deref (objects (calculate_line_rects scenario_T)) 1%nat in
  ∀ lo hi, vertical self = Some (lo, hi) →
    0 ≤ rect_y (pos self) < 100 → lo ≤ rect_y (pos self) < hi.
Proof.
  assert (Hin : In 1%nat (split_points scenario_T)) by (right; left; reflexivity).
  split; [exact Hin|].
  exact (proj2 (calculate_line_rects_interval_contains_anchor scenario_T 1%nat Hin)).
Defined.

(** ** Further properties of the code *)

(** *** References and selection *)

Lemma list_remove_NoDup `{EqDecision A} (x : A) (l : list A) :
  NoDup l → NoDup (list_remove x l).
Proof.
  induction 1 as [|y l Hy Hl IH]; simpl; [constructor|].
  case_decide; [done|]. constructor; [|done].
  rewrite list_elem_of_In. intros Hin%list_remove_In. by apply Hy, list_elem_of_In.
Qed.

Lemma list_remove_In_ne `{EqDecision A} (x y : A) (l : list A) :
  y ≠ x → In y l → In y (list_remove x l).
Proof.
  intros Hne. induction l as [|z l IH]; simpl; [done|].
  intros [->|Hin]; case_decide; subst; simpl; auto. done.
Qed.

Lemma list_remove_NoDup_notin `{EqDecision A} (x : A) (l : list A) :
  NoDup l → ¬ In x (list_remove x l).
Proof.
  induction 1 as [|y l Hy Hl IH]; simpl; [tauto|].
  case_decide; subst; [by rewrite <- list_elem_of_In|].
  intros [->|Hin]; [done|]. by apply IH.
Qed.

Lemma list_remove_length `{EqDecision A} (x : A) (l : list A) :
  In x l → S (length (list_remove x l)) = length l.
Proof.
  induction l as [|y l IH]; simpl; [done|].
  intros [->|Hin]; case_decide; subst; simpl; try done. by rewrite IH.
Qed.

Lemma first_near_In (s : SplitStateManager) mouse_pos (p : loc) :
  first_near s mouse_pos = Some p →
  In p (split_points s) ∧
  distance_to_le (deref (objects s) p) mouse_pos (dot_radius s) = true.
Proof. unfold first_near. apply find_some. Qed.

Lemma well_formed_calculate_line_rects (s : SplitStateManager) :
  well_formed s → well_formed (calculate_line_rects s).
Proof.
  intros (Hnd & Hv & Hsel). split; [exact Hnd|]. split; [|exact Hsel].
  by apply valid_refs_calculate_line_rects.
Qed.

Lemma well_formed_mutate f (p : loc) (s : SplitStateManager) :
  well_formed s → well_formed (set_objects (mutate f p (objects s)) s).
Proof.
  intros (Hnd & Hv & Hsel). split; [exact Hnd|]. split; [|exact Hsel].
  intros q Hq. simpl. unfold mutate. rewrite length_alter. by apply Hv.
Qed.

Lemma well_formed_add_point mouse_pos (s : SplitStateManager) :
  well_formed s → well_formed (add_point mouse_pos s).
Proof.
  intros (Hnd & Hv & Hsel). unfold add_point.
  destruct (first_near s mouse_pos) as [p|] eqn:Hnear.
  - split; [exact Hnd|]. split; [exact Hv|].
    intros q. simpl. intros [= <-]. by apply first_near_In in Hnear as [? _].
  - simpl. rewrite last_snoc. split; [|split].
    + simpl. apply NoDup_app. split; [done|]. split; [|apply NoDup_singleton].
      intros q Hq%list_elem_of_In Heq%list_elem_of_singleton. subst q.
      specialize (Hv _ Hq). lia.
    + intros q. simpl. rewrite in_app_iff, length_app. simpl.
      intros [Hq|[<-|[]]]; [|lia]. specialize (Hv q Hq). lia.
    + intros q. simpl. intros [= <-]. apply in_app_iff. right. by left.
Qed.

Lemma well_formed_delete_point mouse_pos (s : SplitStateManager) :
  well_formed s → well_formed (delete_point mouse_pos s).
Proof.
  intros (Hnd & Hv & Hsel). unfold delete_point.
  apply well_formed_calculate_line_rects.
  destruct (first_near s mouse_pos) as [p|]; [|done].
  simpl. case_decide as Hp; (split; [|split]); simpl.
  - by apply list_remove_NoDup.
  - intros q Hq. apply Hv. exact (list_remove_In _ _ _ Hq).
  - by intros q.
  - by apply list_remove_NoDup.
  - intros q Hq. apply Hv. exact (list_remove_In _ _ _ Hq).
  - intros q Hq. simpl in *. apply list_remove_In_ne; [congruence|]. by apply Hsel.
Qed.

Lemma well_formed_run c (s : SplitStateManager) :
  well_formed s → well_formed (run c s).
Proof.
  intros Hwf. destruct c; simpl.
  - unfold on_mouse_down. by destruct press as [[[] ?] []].
  - unfold on_mouse_up. destruct (placing s); [by apply well_formed_add_point|].
    destruct (deleting s); [by apply well_formed_delete_point | done].
  - by apply well_formed_add_point.
  - by apply well_formed_delete_point.
  - unfold horizontal_split. destruct (selected_point s); [|done].
    by apply well_formed_calculate_line_rects, well_formed_mutate.
  - unfold vertical_split. destruct (selected_point s); [|done].
    by apply well_formed_calculate_line_rects, well_formed_mutate.
  - unfold increment_index. destruct (selected_point s); [|done].
    by apply well_formed_calculate_line_rects, well_formed_mutate.
  - unfold decrement_index. destruct (selected_point s); [|done].
    by apply well_formed_calculate_line_rects, well_formed_mutate.
Qed.

Lemma reachable_well_formed size radius (s : SplitStateManager) :
  reachable size radius s → well_formed s.
Proof.
  induction 1 as [|c s _ IH]; [|by apply well_formed_run].
  split; [constructor|]. split; [by intros p []|by intros p].
Qed.

Lemma reachable_scenario_T : reachable (100, 100) 5 scenario_T.
Proof.
  exact (reachable_run _ _ IncrementIndex _
          (reachable_run _ _ VerticalSplit _
            (reachable_run _ _ (AddPoint (50, 80)) _
              (reachable_run _ _ HorizontalSplit _
                (reachable_run _ _ (AddPoint (50, 50)) _
                  (reachable_init _ _)))))).
Defined.

(** X1.  In every state the program can reach, [split_points] lists no
    object twice, every listed reference is to an object of the store, and
    the selected point, when there is one, is one of the listed points:
    a deleted point is never left selected. *)
Theorem reachable_selection_is_listed (size : Z * Z) (radius : Z) (s : SplitStateManager) :
  reachable size radius s →
  NoDup (split_points s) ∧
  (∀ p : loc, In p (split_points s) → is_Some (objects s !! p)) ∧
  (∀ p : loc, selected_point s = Some p → In p (split_points s)).
Proof.
  intros (Hnd & Hv & Hsel)%reachable_well_formed.
  split; [exact Hnd|]. split; [|exact Hsel].
  intros p Hp. apply lookup_lt_is_Some. by apply Hv.
Qed.

Lemma reachable_selection_is_listed_witness :
  NoDup (split_points scenario_T) ∧
  (∀ p : loc, In p (split_points scenario_T) → is_Some (objects scenario_T !! p)) ∧
  (∀ p : loc, selected_point scenario_T = Some p → In p (split_points scenario_T)).
Proof.
  exact (reachable_selection_is_listed (100, 100) 5 scenario_T reachable_scenario_T).
Defined.

(** *** Points keep their distance *)

Lemma distance_to_le_sym (a b : SplitPoint) (radius : Z) :
  distance_to_le a (rect_x (pos b), rect_y (pos b)) radius
  = distance_to_le b (rect_x (pos a), rect_y (pos a)) radius.
Proof.
  unfold distance_to_le, distance_sq. simpl. f_equal. f_equal. lia.
Qed.

Lemma pos_deref_alter f (p : loc) (h : list SplitPoint) (q : loc) :
  (∀ x, pos (f x) = pos x) → pos (deref (alter f p h) q) = pos (deref h q).
Proof.
  intros Hf. destruct (decide (p = q)) as [->|Hne].
  - destruct (h !! q) as [self|] eqn:Hq.
    + by rewrite (deref_alter_eq _ _ _ _ Hq), (deref_Some _ _ _ Hq).
    + by rewrite alter_None.
  - by rewrite deref_alter_ne.
Qed.

Lemma spaced_same_positions (s s' : SplitStateManager) :
  dot_radius s' = dot_radius s →
  (∀ q, In q (split_points s') → In q (split_points s)) →
  (∀ q, pos (deref (objects s') q) = pos (deref (objects s) q)) →
  spaced s → spaced s'.
Proof.
  intros Hr Hl Hpos Hs p q Hp Hq Hne.
  specialize (Hs p q (Hl p Hp) (Hl q Hq) Hne).
  unfold distance_to_le, distance_sq, position in *.
  by rewrite Hr, !Hpos.
Qed.

Lemma spaced_calculate_line_rects (s : SplitStateManager) :
  spaced s → spaced (calculate_line_rects s).
Proof.
  apply spaced_same_positions; [done..|].
  intros q. apply frame_pos, calculate_line_rects_frames.
Qed.

Lemma spaced_mutate f (p : loc) (s : SplitStateManager) :
  (∀ x, pos (f x) = pos x) →
  spaced s → spaced (set_objects (mutate f p (objects s)) s).
Proof.
  intros Hf. apply spaced_same_positions; [done..|].
  intros q. simpl. by apply pos_deref_alter.
Qed.

Lemma spaced_add_point mouse_pos (s : SplitStateManager) :
  valid_refs s → spaced s → spaced (add_point mouse_pos s).
Proof.
  intros Hv Hs. unfold add_point.
  destruct (first_near s mouse_pos) as [p|] eqn:Hnear.
  { revert Hs. by apply spaced_same_positions. }
  pose proof (find_none _ _ Hnear) as Hfar. simpl in Hfar.
  assert (Hnew : deref (objects s ++ [SplitPoint_init mouse_pos]) (length (objects s))
                 = SplitPoint_init mouse_pos).
  { unfold deref. by rewrite list_lookup_total_middle. }
  intros p q. simpl. rewrite !in_app_iff. simpl. unfold position.
  intros [Hp|[<-|[]]] [Hq|[<-|[]]] Hne; try done.
  - rewrite !deref_app_l by auto. by apply Hs.
  - rewrite Hnew, deref_app_l by auto. simpl.
    destruct mouse_pos as [x y]. by apply Hfar.
  - rewrite Hnew, deref_app_l by auto.
    rewrite distance_to_le_sym. simpl.
    destruct mouse_pos as [x y]. by apply Hfar.
Qed.

Lemma spaced_delete_point mouse_pos (s : SplitStateManager) :
  spaced s → spaced (delete_point mouse_pos s).
Proof.
  intros Hs. unfold delete_point. apply spaced_calculate_line_rects.
  destruct (first_near s mouse_pos) as [p|]; [|by revert Hs; apply spaced_same_positions].
  revert Hs. case_decide; apply spaced_same_positions; try done;
    intros q Hq; simpl in *; exact (list_remove_In _ _ _ Hq).
Qed.

Lemma spaced_run c (s : SplitStateManager) :
  valid_refs s → spaced s → spaced (run c s).
Proof.
  intros Hv Hs. destruct c; simpl.
  - unfold on_mouse_down.
    destruct press as [[[] ?] []]; simpl; try done;
      revert Hs; by apply spaced_same_positions.
  - unfold on_mouse_up. destruct (placing s); [by apply spaced_add_point|].
    destruct (deleting s); [by apply spaced_delete_point | done].
  - by apply spaced_add_point.
  - by apply spaced_delete_point.
  - unfold horizontal_split. destruct (selected_point s); [|done].
    apply spaced_calculate_line_rects, spaced_mutate; [|done].
    intros x. unfold toggle_horizontal. by destruct (horizontal x).
  - unfold vertical_split. destruct (selected_point s); [|done].
    apply spaced_calculate_line_rects, spaced_mutate; [|done].
    intros x. unfold toggle_vertical. by destruct (vertical x).
  - unfold increment_index. destruct (selected_point s); [|done].
    by apply spaced_calculate_line_rects, spaced_mutate.
  - unfold decrement_index. destruct (selected_point s); [|done].
    by apply spaced_calculate_line_rects, spaced_mutate.
Qed.

(** X2.  In every state the program can reach, no point of
    [split_points] lies within the pick radius of another one; so, for a
    pick radius that is not negative, two listed points never have the
    same position. *)
Theorem reachable_points_spaced (size : Z * Z) (radius : Z) (s : SplitStateManager)
    (p q : loc) :
  reachable size radius s →
  In p (split_points s) → In q (split_points s) → p ≠ q →
  distance_to_le (deref (objects s) p) (position (objects s) q) (dot_radius s) = false ∧
  (0 ≤ dot_radius s → position (objects s) p ≠ position (objects s) q).
Proof.
  intros Hs Hp Hq Hne.
  assert (Hsp : spaced s).
  { clear p q Hp Hq Hne. induction Hs as [|c s Hs IH]; [by intros p q []|].
    apply spaced_run; [|done]. by apply (reachable_well_formed size radius). }
  split; [by apply Hsp|].
  intros Hr Heq. specialize (Hsp p q Hp Hq Hne). rewrite <- Heq in Hsp.
  unfold distance_to_le, distance_sq, position in Hsp. simpl in Hsp.
  rewrite !Z.sub_diag in Hsp. simpl in Hsp.
  apply andb_false_iff in Hsp as [Hsp|Hsp]; apply Z.leb_gt in Hsp; nia.
Qed.

Lemma reachable_points_spaced_witness :
  distance_to_le (deref (objects scenario_T) 0%nat) (position (objects scenario_T) 1%nat)
                 (dot_radius scenario_T) = false ∧
  (0 ≤ dot_radius scenario_T →
   position (objects scenario_T) 0%nat ≠ position (objects scenario_T) 1%nat).
Proof.
  apply (reachable_points_spaced (100, 100) 5 scenario_T 0%nat 1%nat reachable_scenario_T).
  - left. reflexivity.
  - right. left. reflexivity.
  - lia.
Defined.

(** *** Round trips of the commands on the selected point *)

(** The recompute reads the frames only: stores that agree on them, and
    on the objects that are not listed, are recomputed to the same store. *)
Lemma calculate_line_rects_same_frames (s s' : SplitStateManager) :
  screen_size s = screen_size s' →
  split_points s = split_points s' →
  length (objects s) = length (objects s') →
  (∀ q, frame (deref (objects s) q) = frame (deref (objects s') q)) →
  (∀ q : loc, ¬ In q (split_points s) → objects s !! q = objects s' !! q) →
  objects (calculate_line_rects s) = objects (calculate_line_rects s').
Proof.
  intros Hsz Hl Hlen Hf Hout. apply list_eq. intros q.
  rewrite !calculate_line_rects_lookup, <- Hl, <- Hsz.
  case_decide as Hin; [|apply Hout; by rewrite <- list_elem_of_In].
  destruct (objects s !! q) as [x|] eqn:Hx, (objects s' !! q) as [x'|] eqn:Hx'; simpl.
  - f_equal. rewrite (recompute_point_frames _ _ _ _ _ Hf).
    apply recompute_point_same_frame.
    rewrite <- (deref_Some _ _ _ Hx), <- (deref_Some _ _ _ Hx'). apply Hf.
  - apply lookup_ge_None in Hx'.
    assert (q < length (objects s))%nat by (apply lookup_lt_is_Some; by rewrite Hx). lia.
  - apply lookup_ge_None in Hx.
    assert (q < length (objects s'))%nat by (apply lookup_lt_is_Some; by rewrite Hx'). lia.
  - done.
Qed.

Lemma manager_eq (s s' : SplitStateManager) :
  screen_size s = screen_size s' → dot_radius s = dot_radius s' →
  placing s = placing s' → deleting s = deleting s' →
  objects s = objects s' → split_points s = split_points s' →
  selected_point s = selected_point s' → s = s'.
Proof. destruct s, s'. simpl. congruence. Qed.

(** Two commands on a listed point, the second undoing what the first
    did to its frame, give back a state in which the clipping was up to
    date. *)
Lemma mutate_twice_restores (f g : SplitPoint → SplitPoint) (p : loc)
    (s : SplitStateManager) :
  recomputed s → In p (split_points s) →
  (∀ x y, frame y = frame (f x) → frame (g y) = frame x) →
  let s1 := calculate_line_rects (set_objects (mutate f p (objects s)) s) in
  calculate_line_rects (set_objects (mutate g p (objects s1)) s1) = s.
Proof.
  intros Hr Hp Hfg s1.
  assert (Hf1 : ∀ q, frame (deref (objects s1) q)
                     = frame (deref (mutate f p (objects s)) q)).
  { intros q. unfold s1. by rewrite calculate_line_rects_frames. }
  assert (Hlen1 : length (objects s1) = length (objects s)).
  { unfold s1. rewrite calculate_line_rects_length. simpl. apply length_alter. }
  assert (Hout1 : ∀ q : loc, ¬ In q (split_points s) → objects s1 !! q = objects s !! q).
  { intros q Hq. assert (p ≠ q) by congruence.
    unfold s1. rewrite calculate_line_rects_lookup. simpl.
    rewrite decide_False by (by rewrite list_elem_of_In).
    unfold mutate. by rewrite list_lookup_alter_ne. }
  assert (Hfields : screen_size s1 = screen_size s ∧ dot_radius s1 = dot_radius s ∧
                    placing s1 = placing s ∧ deleting s1 = deleting s ∧
                    split_points s1 = split_points s ∧
                    selected_point s1 = selected_point s) by done.
  destruct Hfields as (Hsz & Hrad & Hpl & Hdel & Hl & Hsel).
  clearbody s1.
  apply manager_eq;
    [exact Hsz | exact Hrad | exact Hpl | exact Hdel | | exact Hl | exact Hsel].
  transitivity (objects (calculate_line_rects s)); [|by rewrite Hr].
  apply calculate_line_rects_same_frames; simpl; try done.
  - unfold mutate. by rewrite length_alter.
  - intros q. unfold mutate. destruct (decide (p = q)) as [<-|Hne].
    + destruct (objects s !! p) as [x|] eqn:Hx.
      * assert (Hx1 : is_Some (objects s1 !! p)).
        { apply lookup_lt_is_Some. rewrite Hlen1. apply lookup_lt_is_Some. by rewrite Hx. }
        destruct Hx1 as [y Hy].
        rewrite (deref_alter_eq _ _ _ _ Hy), (deref_Some _ _ _ Hx).
        apply Hfg. rewrite <- (deref_Some _ _ _ Hy), Hf1.
        unfold mutate. by rewrite (deref_alter_eq _ _ _ _ Hx).
      * assert (Hy : objects s1 !! p = None).
        { apply lookup_ge_None. rewrite Hlen1. by apply lookup_ge_None. }
        by rewrite (alter_None _ _ _ Hy), (deref_None _ _ Hy), (deref_None _ _ Hx).
    + rewrite deref_alter_ne, Hf1 by done. unfold mutate. by rewrite deref_alter_ne.
  - rewrite Hl. intros q Hq. assert (p ≠ q) by congruence.
    unfold mutate. rewrite list_lookup_alter_ne by done. by apply Hout1.
Qed.

Lemma toggle_horizontal_undo width x y :
  frame y = frame (toggle_horizontal width x) →
  frame (toggle_horizontal width y) = frame x.
Proof.
  unfold frame, toggle_horizontal.
  destruct x as [? [?|] ? ?], y as [? [?|] ? ?]; simpl; congruence.
Qed.

Lemma toggle_vertical_undo height x y :
  frame y = frame (toggle_vertical height x) →
  frame (toggle_vertical height y) = frame x.
Proof.
  unfold frame, toggle_vertical.
  destruct x as [? ? [?|] ?], y as [? ? [?|] ?]; simpl; congruence.
Qed.

(** X3.  In every state the program can reach, pressing the key of a
    cut twice gives back the very same state: [horizontal_split] twice, or
    [vertical_split] twice, restores the cut of the selected point, with
    its clipped interval, and the interval of every other point. *)
Theorem split_twice_restores (size : Z * Z) (radius : Z) (s : SplitStateManager) :
  reachable size radius s →
  horizontal_split (horizontal_split s) = s ∧
  vertical_split (vertical_split s) = s.
Proof.
  intros Hs.
  destruct (reachable_recomputed size radius s Hs) as [_ Hr].
  destruct (reachable_well_formed size radius s Hs) as (_ & _ & Hsel).
  unfold horizontal_split, vertical_split.
  destruct (selected_point s) as [p|] eqn:Hp; [|by rewrite Hp].
  simpl. rewrite Hp. split.
  - apply (mutate_twice_restores _ _ p s Hr (Hsel p Hp)).
    apply toggle_horizontal_undo.
  - apply (mutate_twice_restores _ _ p s Hr (Hsel p Hp)).
    apply toggle_vertical_undo.
Qed.

Lemma split_twice_restores_witness :
  horizontal_split (horizontal_split scenario_T) = scenario_T ∧
  vertical_split (vertical_split scenario_T) = scenario_T.
Proof.
  exact (split_twice_restores (100, 100) 5 scenario_T reachable_scenario_T).
Defined.

(** X4.  In every state the program can reach, [increment_index]
    followed by [decrement_index], and [decrement_index] followed by
    [increment_index], give back the very same state. *)
Theorem index_round_trip (size : Z * Z) (radius : Z) (s : SplitStateManager) :
  reachable size radius s →
  decrement_index (increment_index s) = s ∧
  increment_index (decrement_index s) = s.
Proof.
  intros Hs.
  destruct (reachable_recomputed size radius s Hs) as [_ Hr].
  destruct (reachable_well_formed size radius s Hs) as (_ & _ & Hsel).
  unfold increment_index, decrement_index.
  destruct (selected_point s) as [p|] eqn:Hp; [|by rewrite Hp].
  simpl. rewrite Hp. split.
  - apply (mutate_twice_restores (λ q, set_index (index q + 1) q)
             (λ q, set_index (index q - 1) q) p s Hr (Hsel p Hp)).
    intros x y. unfold frame. simpl. intros [= -> -> -> ->]. f_equal. f_equal. f_equal. lia.
  - apply (mutate_twice_restores (λ q, set_index (index q - 1) q)
             (λ q, set_index (index q + 1) q) p s Hr (Hsel p Hp)).
    intros x y. unfold frame. simpl. intros [= -> -> -> ->]. f_equal. f_equal. f_equal. lia.
Qed.

Lemma index_round_trip_witness :
  decrement_index (increment_index scenario_T) = scenario_T ∧
  increment_index (decrement_index scenario_T) = scenario_T.
Proof.
  exact (index_round_trip (100, 100) 5 scenario_T reachable_scenario_T).
Defined.

(** *** The clipping recompute *)

(** X5.  [calculate_line_rects] writes intervals and nothing else: the
    canvas size, the pick radius, the two flags, the list of points and
    the selection are untouched, no object is added to the store or taken
    from it, every object keeps its position, its index and the cuts that
    are on, and an object that is not listed is not touched at all.
    Running it a second time changes nothing. *)
Theorem calculate_line_rects_writes_intervals_only (s : SplitStateManager) :
  let s' := calculate_line_rects s in
  screen_size s' = screen_size s ∧ dot_radius s' = dot_radius s ∧
  placing s' = placing s ∧ deleting s' = deleting s ∧
  split_points s' = split_points s ∧ selected_point s' = selected_point s ∧
  length (objects s') = length (objects s) ∧
  (∀ q, pos (deref (objects s') q) = pos (deref (objects s) q) ∧
        index (deref (objects s') q) = index (deref (objects s) q) ∧
        is_not_None (horizontal (deref (objects s') q))
        = is_not_None (horizontal (deref (objects s) q)) ∧
        is_not_None (vertical (deref (objects s') q))
        = is_not_None (vertical (deref (objects s) q))) ∧
  (∀ q : loc, ¬ In q (split_points s) → objects s' !! q = objects s !! q) ∧
  calculate_line_rects s' = s'.
Proof.
  intros s'. repeat split; try done.
  - apply calculate_line_rects_length.
  - apply frame_pos, calculate_line_rects_frames.
  - apply frame_index, calculate_line_rects_frames.
  - apply frame_horizontal, calculate_line_rects_frames.
  - apply frame_vertical, calculate_line_rects_frames.
  - intros q Hq. unfold s'. rewrite calculate_line_rects_lookup.
    by rewrite decide_False by (by rewrite list_elem_of_In).
  - apply calculate_line_rects_idemp.
Qed.

(** X6.  The intervals that [calculate_line_rects] computes do not depend
    on the intervals held before: two states with the same canvas and the
    same listed points, whose objects agree on position, index and on which
    cuts are on, get the same intervals at every listed point. *)
Theorem calculate_line_rects_ignores_old_intervals (s s' : SplitStateManager) (p : loc) :
  screen_size s = screen_size s' →
  split_points s = split_points s' →
  length (objects s) = length (objects s') →
  (∀ q, frame (deref (objects s) q) = frame (deref (objects s') q)) →
  In p (split_points s) →
  objects (calculate_line_rects s) !! p = objects (calculate_line_rects s') !! p.
Proof.
  intros Hsz Hl Hlen Hf Hp.
  rewrite !calculate_line_rects_lookup, <- Hl, <- Hsz.
  rewrite !decide_True by (by apply list_elem_of_In).
  destruct (objects s !! p) as [x|] eqn:Hx, (objects s' !! p) as [x'|] eqn:Hx'; simpl.
  - f_equal. rewrite (recompute_point_frames _ _ _ _ _ Hf).
    apply recompute_point_same_frame.
    rewrite <- (deref_Some _ _ _ Hx), <- (deref_Some _ _ _ Hx'). apply Hf.
  - apply lookup_ge_None in Hx'.
    assert (p < length (objects s))%nat by (apply lookup_lt_is_Some; by rewrite Hx). lia.
  - apply lookup_ge_None in Hx.
    assert (p < length (objects s'))%nat by (apply lookup_lt_is_Some; by rewrite Hx'). lia.
  - done.
Qed.

Lemma calculate_line_rects_ignores_old_intervals_witness :
  let stale := set_objects (mutate (set_vertical (Some (7, 9))) 1%nat (objects scenario_T))
                           scenario_T in
  objects (calculate_line_rects scenario_T) !! 1%nat
  = objects (calculate_line_rects stale) !! 1%nat.
Proof.
  intros stale.
  apply (calculate_line_rects_ignores_old_intervals scenario_T stale 1%nat);
    try reflexivity.
  - intros q. destruct q as [|[|q]]; reflexivity.
  - right. left. reflexivity.
Defined.

(** X7.  The intervals that [calculate_line_rects] computes do not depend
    on the order of [split_points] (nor on repetitions in it): the same
    points listed in another order are recomputed to the same store. *)
Theorem calculate_line_rects_ignores_order (s : SplitStateManager) (l : list loc) :
  (∀ q, In q l ↔ In q (split_points s)) →
  objects (calculate_line_rects (set_split_points l s))
  = objects (calculate_line_rects s).
Proof.
  intros Hl. apply list_eq. intros q.
  rewrite !calculate_line_rects_lookup. simpl.
  assert (Hrec : ∀ x, recompute_point (screen_size s) (objects s) l x
                      = recompute_point (screen_size s) (objects s) (split_points s) x).
  { intros x. unfold recompute_point.
    assert (Hlow : ∀ q', In q' (lower_priority (objects s) l (index x))
                         ↔ In q' (lower_priority (objects s) (split_points s) (index x))).
    { intros q'. unfold lower_priority. by rewrite !filter_In, Hl. }
    apply clip_ext; [by apply vertical_xs_ext | by apply horizontal_ys_ext]. }
  destruct (decide (q ∈ l)) as [Hq|Hq], (decide (q ∈ split_points s)) as [Hq'|Hq'];
    rewrite list_elem_of_In in Hq; rewrite list_elem_of_In in Hq';
    try (by rewrite Hl in Hq).
  destruct (objects s !! q); simpl; [|done]. by rewrite Hrec.
Qed.

Lemma calculate_line_rects_ignores_order_witness :
  objects (calculate_line_rects (set_split_points [1%nat; 0%nat] scenario_T))
  = objects (calculate_line_rects scenario_T).
Proof.
  apply (calculate_line_rects_ignores_order scenario_T [1%nat; 0%nat]).
  intros q. simpl. tauto.
Defined.

(** X8.  After [calculate_line_rects] the lower end of every interval of
    a listed point is at least 0 and its upper end at most the canvas
    extent; and when the coordinate of the point is on the canvas the
    interval contains it, so that the whole cut line is on the canvas:
    [0 <= lo <= x < hi <= width] for a horizontal interval, and likewise
    for a vertical one with [y] and the canvas height. *)
Theorem calculate_line_rects_within_canvas (s : SplitStateManager) (p : loc) :
  In p (split_points s) →
  let self := deref (objects (calculate_line_rects s)) p in
  (∀ lo hi, horizontal self = Some (lo, hi) →
     0 ≤ lo ∧ hi ≤ (screen_size s).1 ∧
     (0 ≤ rect_x (pos self) < (screen_size s).1 → lo ≤ rect_x (pos self) < hi)) ∧
  (∀ lo hi, vertical self = Some (lo, hi) →
     0 ≤ lo ∧ hi ≤ (screen_size s).2 ∧
     (0 ≤ rect_y (pos self) < (screen_size s).2 → lo ≤ rect_y (pos self) < hi)).
Proof.
  intros Hin self.
  pose proof (calculate_line_rects_point s p Hin) as Hself. cbv zeta in Hself.
  split; intros lo hi Hiv; unfold self in Hiv; rewrite Hself in Hiv.
  - apply clip_horizontal_bounds in Hiv as [Hlo Hhi]. split; [|split].
    + apply Hlo. by left.
    + apply Hhi. by left.
    + intros [H0 Hw]. split; [by eapply is_max_of_below | by eapply is_min_of_above].
  - apply clip_vertical_bounds in Hiv as [Hlo Hhi]. split; [|split].
    + apply Hlo. by left.
    + apply Hhi. by left.
    + intros [H0 Hw]. split; [by eapply is_max_of_below | by eapply is_min_of_above].
Qed.

Lemma calculate_line_rects_within_canvas_witness :
  In 1%nat (split_points scenario_T) ∧
  let self := deref (objects (calculate_line_rects scenario_T)) 1%nat in
  ∀ lo hi, vertical self = Some (lo, hi) →
    0 ≤ lo ∧ hi ≤ 100 ∧ (0 ≤ rect_y (pos self) < 100 → lo ≤ rect_y (pos self) < hi).
Proof.
  assert (Hin : In 1%nat (split_points scenario_T)) by (right; left; reflexivity).
  split; [exact Hin|].
  exact (proj2 (calculate_line_rects_within_canvas scenario_T 1%nat Hin)).
Defined.

(** X9.  A cut that no point of strictly lower index crosses is not
    clipped: after [calculate_line_rects], a listed point with a horizontal
    cut has the interval [(0, width)] when no listed point of strictly lower
    index has a vertical cut, and a listed point with a vertical cut has
    [(0, height)] when none of them has a horizontal cut.  So the points of
    the lowest index, and points that all share one index, span the whole
    canvas. *)
Theorem calculate_line_rects_full_span (s : SplitStateManager) (p : loc) (self : SplitPoint) :
  In p (split_points s) → objects s !! p = Some self →
  let self' := deref (objects (calculate_line_rects s)) p in
  (is_Some (horizontal self) →
   (∀ q, In q (split_points s) → index (deref (objects s) q) < index self →
         vertical (deref (objects s) q) = None) →
   horizontal self' = Some (0, (screen_size s).1)) ∧
  (is_Some (vertical self) →
   (∀ q, In q (split_points s) → index (deref (objects s) q) < index self →
         horizontal (deref (objects s) q) = None) →
   vertical self' = Some (0, (screen_size s).2)).
Proof.
  intros Hin Hp self'.
  assert (Hself' : self' = recompute_point (screen_size s) (objects s) (split_points s) self).
  { apply deref_Some. rewrite calculate_line_rects_lookup.
    rewrite decide_True by (by apply list_elem_of_In). by rewrite Hp. }
  rewrite Hself'. unfold recompute_point, clip. simpl. split.
  - intros [iv Hiv] Hnone. rewrite Hiv. simpl.
    assert (Hxs : vertical_xs (objects s)
                    (lower_priority (objects s) (split_points s) (index self)) = []).
    { unfold vertical_xs. rewrite filter_none; [done|].
      intros q [Hq Hlt%Z.ltb_lt]%filter_In. unfold has_vertical.
      by rewrite (Hnone q Hq Hlt). }
    by rewrite Hxs.
  - intros [iv Hiv] Hnone. rewrite Hiv. simpl.
    assert (Hys : horizontal_ys (objects s)
                    (lower_priority (objects s) (split_points s) (index self)) = []).
    { unfold horizontal_ys. rewrite filter_none; [done|].
      intros q [Hq Hlt%Z.ltb_lt]%filter_In. unfold has_horizontal.
      by rewrite (Hnone q Hq Hlt). }
    by rewrite Hys.
Qed.

Lemma calculate_line_rects_full_span_witness :
  horizontal (deref (objects (calculate_line_rects scenario_T)) 0%nat) = Some (0, 100).
Proof.
  assert (Hin : In 0%nat (split_points scenario_T)) by (left; reflexivity).
  assert (Hp : objects scenario_T !! 0%nat = Some (deref (objects scenario_T) 0%nat))
    by (vm_compute; reflexivity).
  apply (proj1 (calculate_line_rects_full_span scenario_T 0%nat _ Hin Hp)).
  - vm_compute. eauto.
  - intros q [<-|[<-|[]]]; vm_compute; intros; [reflexivity|discriminate].
Defined.

(** *** [_calculate_bounds] *)

(** X10.  [_calculate_bounds] never widens the interval it is given and
    never moves a bound across [bound]: the returned lower bound is the one
    given or a candidate above it and strictly below [bound], the returned
    upper bound is the one given or a candidate below it and strictly above
    [bound]. *)
Theorem _calculate_bounds_narrows (bound lower_bound upper_bound : Z) (bounds : list Z) :
  let r := _calculate_bounds bound lower_bound upper_bound bounds in
  (r.1 = lower_bound ∨ (In r.1 bounds ∧ lower_bound < r.1 < bound)) ∧
  (r.2 = upper_bound ∨ (In r.2 bounds ∧ bound < r.2 < upper_bound)).
Proof.
  intros r. unfold r. rewrite _calculate_bounds_tightest. simpl.
  unfold tightest_lower, tightest_upper. split.
  - destruct (foldr_max_is_max lower_bound (List.filter (λ x, x <? bound) bounds))
      as [[Heq|Hin] Hle]; [by left|].
    specialize (Hle lower_bound (or_introl eq_refl)).
    apply filter_In in Hin as [Hin Hlt%Z.ltb_lt].
    destruct (decide (foldr Z.max lower_bound (List.filter (λ x, x <? bound) bounds)
                      = lower_bound)) as [|Hne]; [by left|].
    right. split; [done|lia].
  - destruct (foldr_min_is_min upper_bound (List.filter (λ x, bound <? x) bounds))
      as [[Heq|Hin] Hle]; [by left|].
    specialize (Hle upper_bound (or_introl eq_refl)).
    apply filter_In in Hin as [Hin Hlt%Z.ltb_lt].
    destruct (decide (foldr Z.min upper_bound (List.filter (λ x, bound <? x) bounds)
                      = upper_bound)) as [|Hne]; [by left|].
    right. split; [done|lia].
Qed.

(** X11.  The result of [_calculate_bounds] depends on the candidates as
    a set: their order does not matter, and neither does a candidate given
    twice. *)
Theorem _calculate_bounds_ignores_order (bound lower_bound upper_bound : Z)
    (bounds bounds' : list Z) :
  (∀ x, In x bounds ↔ In x bounds') →
  _calculate_bounds bound lower_bound upper_bound bounds
  = _calculate_bounds bound lower_bound upper_bound bounds'.
Proof.
  intros Hl. rewrite !_calculate_bounds_tightest.
  by rewrite (tightest_lower_ext _ _ _ _ Hl), (tightest_upper_ext _ _ _ _ Hl).
Qed.

Lemma _calculate_bounds_ignores_order_witness :
  _calculate_bounds 50 0 100 [20; 70; 30; 90]
  = _calculate_bounds 50 0 100 [90; 30; 30; 70; 20].
Proof.
  apply (_calculate_bounds_ignores_order 50 0 100). intros x. simpl. tauto.
Defined.

(** *** [group_points] *)

Lemma group_points_iter_snoc h (groups : list (list loc)) (current : list loc) (point : loc) :
  group_points_iter h (groups ++ [current]) point
  = match current with
    | [] => groups ++ [[point]]
    | first :: _ =>
        if index (deref h first) =? index (deref h point)
        then groups ++ [current ++ [point]]
        else (groups ++ [current]) ++ [[point]]
    end.
Proof.
  unfold group_points_iter. rewrite last_last, removelast_last.
  by destruct current.
Qed.

Lemma group_points_loop_concat h (points : list loc) : ∀ groups current,
  concat (foldl (group_points_iter h) (groups ++ [current]) points)
  = concat groups ++ current ++ points.
Proof.
  induction points as [|pt points IH]; intros groups current; simpl.
  - by rewrite concat_app; simpl; rewrite !app_nil_r.
  - rewrite group_points_iter_snoc. destruct current as [|first current].
    + by rewrite IH.
    + destruct (_ =? _).
      * rewrite IH. by rewrite <- !app_assoc.
      * rewrite IH, concat_app. simpl. by rewrite app_nil_r, <- !app_assoc.
Qed.

Lemma StronglySorted_lookup_lt (l : list Z) (i j : nat) a b :
  StronglySorted Z.lt l → (i < j)%nat → l !! i = Some a → l !! j = Some b → a < b.
Proof.
  intros Hs. revert i j. induction Hs as [|x l Hs IH Hx]; intros i j Hij Hi Hj; [done|].
  destruct j as [|j]; [lia|]. destruct i as [|i]; simpl in *.
  - injection Hi as <-. rewrite Forall_forall in Hx. apply Hx.
    by eapply list_elem_of_lookup_2.
  - apply (IH i j); [lia|done..].
Qed.

Lemma group_points_loop_runs h (points : list loc) : ∀ groups current,
  current ≠ [] →
  runs h (groups ++ [current]) →
  StronglySorted (key_le (λ p, index (deref h p))) points →
  (∀ p, In p points → group_index h current ≤ index (deref h p)) →
  runs h (foldl (group_points_iter h) (groups ++ [current]) points).
Proof.
  induction points as [|pt points IH]; intros groups current Hne Hruns Hs Hge;
    simpl; [done|].
  apply StronglySorted_inv in Hs as [Hs Hpt]. rewrite Forall_forall in Hpt.
  rewrite group_points_iter_snoc. destruct current as [|first current]; [done|].
  destruct Hruns as [Hall Hsorted].
  apply Forall_app in Hall as [Hall Hcur]. apply Forall_singleton in Hcur as [_ Hcur].
  destruct (Z.eqb_spec (index (deref h first)) (index (deref h pt))) as [Heq|Hneq].
  - apply IH; [done| |done|].
    + split.
      * apply Forall_app. split; [done|]. apply Forall_singleton. split; [done|].
        intros p. unfold group_index. simpl. intros [<-|Hp]; [done|].
        apply in_app_iff in Hp as [Hp|[<-|[]]]; [|done].
        apply (Hcur p). by right.
      * by rewrite map_app in *.
    + intros p Hp. unfold group_index. simpl. apply (Hge p). by right.
  - assert (Hlt : index (deref h first) < index (deref h pt)).
    { specialize (Hge pt (or_introl eq_refl)). unfold group_index in Hge.
      simpl in Hge. lia. }
    apply IH; [done| |done|].
    + split.
      * apply Forall_app. split; [apply Forall_app; split; [done|]|].
        -- apply Forall_singleton. by split.
        -- apply Forall_singleton. split; [done|]. by intros p [<-|[]].
      * rewrite map_app. simpl. apply StronglySorted_app_2; [|done|repeat constructor].
        intros x1 x2 Hx1 Hx2%list_elem_of_singleton. subst x2.
        unfold group_index at 1. simpl.
        rewrite map_app in Hx1, Hsorted. simpl in *.
        apply elem_of_app in Hx1 as [Hx1|Hx1%list_elem_of_singleton].
        -- assert (x1 < group_index h (first :: current)); [|unfold group_index in *; simpl in *; lia].
           eapply StronglySorted_app_1_elem_of; [exact Hsorted|done|].
           by apply list_elem_of_singleton.
        -- subst x1. by unfold group_index.
    + intros p Hp. unfold group_index. simpl.
      apply Hpt. by apply list_elem_of_In.
Qed.

(** X12.  The groups of [group_points], one after the other, are the
    points of [split_points] that have a cut, sorted by index: a point
    with a cut is in a group, a point with no cut is in none, and no point
    is dropped or listed twice on the way. *)
Theorem group_points_concat (s : SplitStateManager) :
  concat (group_points s)
  = sorted (λ p, index (deref (objects s) p))
           (List.filter (has_cut (objects s)) (split_points s))
  ∧ ∀ p, (∃ group, In group (group_points s) ∧ In p group)
         ↔ (In p (split_points s) ∧ has_cut (objects s) p = true).
Proof.
  assert (Hc : concat (group_points s)
               = sorted (λ p, index (deref (objects s) p))
                        (List.filter (has_cut (objects s)) (split_points s))).
  { unfold group_points. apply (group_points_loop_concat _ _ [] []). }
  split; [exact Hc|]. intros p.
  by rewrite <- in_concat, Hc, sorted_In, filter_In.
Qed.

(** X13.  The groups of [group_points] are the runs of equal index, in
    ascending order: unless no point has a cut, when the result is the one
    empty group, no group is empty; the points of a group all have the
    same index; and a point of an earlier group has a strictly lower index
    than a point of a later group. *)
Theorem group_points_runs (s : SplitStateManager) :
  let h := objects s in
  let groups := group_points s in
  (groups = [[]] ∨ ∀ group, In group groups → group ≠ []) ∧
  (∀ group p q, In group groups → In p group → In q group →
     index (deref h p) = index (deref h q)) ∧
  (∀ (i j : nat) gi gj p q, (i < j)%nat → groups !! i = Some gi → groups !! j = Some gj →
     In p gi → In q gj → index (deref h p) < index (deref h q)).
Proof.
  intros h groups. unfold groups, group_points. fold h.
  pose proof (sorted_sorted (λ p, index (deref h p))
                (List.filter (has_cut h) (split_points s))) as Hs.
  destruct (sorted _ _) as [|pt points].
  { simpl. split; [by left|]. split.
    - by intros group p q [<-|[]] [].
    - intros [|i] [|j] gi gj p q Hij; simpl; try lia; try done. }
  simpl. change (group_points_iter h [[]] pt) with ([] ++ [[pt]]).
  apply StronglySorted_inv in Hs as [Hs Hpt]. rewrite Forall_forall in Hpt.
  assert (Hruns : runs h (foldl (group_points_iter h) ([] ++ [[pt]]) points)).
  { apply group_points_loop_runs; [done| |done|].
    - split; [|repeat constructor]. apply Forall_singleton.
      split; [done|]. by intros p [<-|[]].
    - intros p Hp. apply Hpt. by apply list_elem_of_In. }
  destruct Hruns as [Hall Hsorted]. rewrite Forall_forall in Hall.
  split; [right; intros g Hg%list_elem_of_In; by apply Hall|]. split.
  - intros g p q Hg%list_elem_of_In Hp Hq. destruct (Hall g Hg) as [_ Hu].
    by rewrite (Hu p Hp), (Hu q Hq).
  - intros i j gi gj p q Hij Hi Hj Hp Hq.
    destruct (Hall gi (list_elem_of_lookup_2 _ _ _ Hi)) as [_ Hui].
    destruct (Hall gj (list_elem_of_lookup_2 _ _ _ Hj)) as [_ Huj].
    rewrite (Hui p Hp), (Huj q Hq).
    apply (StronglySorted_lookup_lt _ i j _ _ Hsorted Hij).
    + by rewrite list_lookup_fmap, Hi.
    + by rewrite list_lookup_fmap, Hj.
Qed.

(** *** [subdivide_box] and [calculate_boxes] *)

Lemma calculate_boxes_in_order_aux (s : SplitStateManager) :
  calculate_boxes s
  = foldl (λ boxes group, subdivide_all (objects s) group boxes)
          [mkRect 0 0 (screen_size s).1 (screen_size s).2]
          (group_points s).
Proof.
  unfold calculate_boxes. generalize [mkRect 0 0 (screen_size s).1 (screen_size s).2].
  induction (group_points s) as [|group groups IH]; intros boxes; simpl; [done|].
  by rewrite boxes_pass_flat_map, IH.
Qed.

Lemma subdivide_box_length_aux (h : list SplitPoint) (box : Rect) (points : list loc) :
  (1 ≤ length (subdivide_box h box points))%nat.
Proof.
  rewrite subdivide_box_grid. unfold grid.
  destruct (vertical_xs h points); simpl; rewrite length_app, length_map;
    destruct (horizontal_ys h points); simpl; lia.
Qed.

(** X14.  In the loop of [calculate_boxes], [boxes.remove(box)] always
    removes the box that is being visited, also when an equal box occurs
    elsewhere in the list: each pass replaces every box, in place, by its
    subdivision, so the returned list is ordered box by box, then column
    by column, then row by row. *)
Theorem calculate_boxes_in_order (s : SplitStateManager) :
  calculate_boxes s
  = foldl (λ boxes group, subdivide_all (objects s) group boxes)
          [mkRect 0 0 (screen_size s).1 (screen_size s).2]
          (group_points s).
Proof.
  unfold calculate_boxes, subdivide_all.
  generalize [mkRect 0 0 (screen_size s).1 (screen_size s).2].
  induction (group_points s) as [|group groups IH]; intros boxes; simpl; [done|].
  rewrite IH. f_equal. apply boxes_pass_flat_map.
Qed.

Lemma group_points_same_frames (s s' : SplitStateManager) :
  split_points s = split_points s' →
  (∀ q, frame (deref (objects s) q) = frame (deref (objects s') q)) →
  group_points s = group_points s'.
Proof.
  intros Hl Hf. unfold group_points.
  rewrite <- Hl, (filter_ext _ _ (has_cut_frames _ _ Hf)), (sorted_frames _ _ Hf).
  generalize (sorted (λ p, index (deref (objects s') p))
                (List.filter (has_cut (objects s')) (split_points s))).
  intros points. generalize [[] : list loc]. induction points as [|pt points IH];
    intros groups; simpl; [done|].
  rewrite <- IH. f_equal. unfold group_points_iter.
  destruct (List.last groups []) as [|first current]; [done|].
  by rewrite (frame_index _ _ (Hf first)), (frame_index _ _ (Hf pt)).
Qed.

Lemma subdivide_all_same_frames (h h' : list SplitPoint) group boxes :
  (∀ q, frame (deref h q) = frame (deref h' q)) →
  subdivide_all h group boxes = subdivide_all h' group boxes.
Proof.
  intros Hf. unfold subdivide_all. apply flat_map_ext. intros box.
  assert (Hin : points_in_box h box group = points_in_box h' box group).
  { unfold points_in_box. apply filter_ext. intros q.
    by rewrite (frame_pos _ _ (Hf q)). }
  rewrite !subdivide_box_grid, Hin.
  by rewrite (vertical_xs_frames _ _ Hf), (horizontal_ys_frames _ _ Hf).
Qed.

(** X15.  [calculate_boxes] does not read the intervals: two states with
    the same canvas and the same listed points, whose objects agree on
    position, index and on which cuts are on, give the same boxes.  So the
    clipping of the cut lines has no effect on the boxes. *)
Theorem calculate_boxes_ignores_intervals (s s' : SplitStateManager) :
  screen_size s = screen_size s' →
  split_points s = split_points s' →
  (∀ q, frame (deref (objects s) q) = frame (deref (objects s') q)) →
  calculate_boxes s = calculate_boxes s'.
Proof.
  intros Hsz Hl Hf. rewrite !calculate_boxes_in_order_aux.
  rewrite Hsz, (group_points_same_frames s s' Hl Hf).
  generalize [mkRect 0 0 (screen_size s').1 (screen_size s').2].
  induction (group_points s') as [|group groups IH]; intros boxes; simpl; [done|].
  by rewrite IH, (subdivide_all_same_frames _ _ _ _ Hf).
Qed.

Lemma calculate_boxes_ignores_intervals_witness :
  calculate_boxes scenario_T
  = calculate_boxes (set_objects (mutate (set_vertical (Some (7, 9))) 1%nat
                                         (objects scenario_T)) scenario_T).
Proof.
  apply (calculate_boxes_ignores_intervals scenario_T); try reflexivity.
  intros q. destruct q as [|[|q]]; reflexivity.
Defined.

Lemma cuts_ascending_scenario_T : cuts_ascending scenario_T.
Proof.
  intros group [<-|[<-|[]]]; split; vm_compute; repeat constructor.
Qed.

Lemma calculate_boxes_tiles_ascending_witness :
  cuts_ascending scenario_T ∧
  tiles (mkRect 0 0 100 100) (calculate_boxes scenario_T).
Proof.
  split; [exact cuts_ascending_scenario_T|].
  exact (calculate_boxes_tiles_ascending scenario_T cuts_ascending_scenario_T).
Defined.

Lemma total_area_app boxes boxes' :
  total_area (boxes ++ boxes') = total_area boxes + total_area boxes'.
Proof. unfold total_area. induction boxes as [|r boxes IH]; simpl; lia. Qed.

Lemma total_area_grid columns rows :
  total_area (grid columns rows) = total_span columns * total_span rows.
Proof.
  unfold grid. induction columns as [|c columns IH]; simpl; [done|].
  rewrite total_area_app, IH.
  assert (Hrow : total_area (map (λ r, mkRect c.1 r.1 (c.2 - c.1) (r.2 - r.1)) rows)
                 = (c.2 - c.1) * total_span rows).
  { clear IH. induction rows as [|r rows IHr]; simpl; [lia|].
    unfold total_area in *. simpl. rewrite IHr. unfold area. simpl. lia. }
  rewrite Hrow. lia.
Qed.

(** The spans of successive slices telescope, in whatever order the cuts
    come. *)
Lemma total_span_slices (stop : Z) (cuts : list Z) : ∀ start,
  total_span (slices start (cuts ++ [stop])) = stop - start.
Proof.
  induction cuts as [|c rest IH]; intros start; simpl; [lia|].
  rewrite IH. lia.
Qed.

Lemma total_area_subdivide_box h (box : Rect) (points : list loc) :
  total_area (subdivide_box h box points) = area box.
Proof.
  rewrite subdivide_box_grid, total_area_grid, !total_span_slices.
  unfold Rect_right, Rect_bottom, area. lia.
Qed.

(** X17.  Whatever the points, their cuts and their order, the signed
    areas (width times height) of the boxes that [calculate_boxes] returns
    add up to the area of the canvas: a pass never loses or gains area,
    also when it makes a box of negative width or height. *)
Theorem calculate_boxes_total_area (s : SplitStateManager) :
  total_area (calculate_boxes s) = (screen_size s).1 * (screen_size s).2.
Proof.
  rewrite calculate_boxes_in_order_aux.
  assert (H0 : total_area [mkRect 0 0 (screen_size s).1 (screen_size s).2]
               = (screen_size s).1 * (screen_size s).2).
  { unfold total_area, area. simpl. lia. }
  revert H0. generalize [mkRect 0 0 (screen_size s).1 (screen_size s).2].
  induction (group_points s) as [|group groups IH]; intros boxes Hb; simpl; [done|].
  apply IH. rewrite <- Hb. unfold subdivide_all. clear.
  induction boxes as [|box boxes IHb]; simpl; [done|].
  rewrite total_area_app, total_area_subdivide_box, IHb.
  unfold total_area. simpl. done.
Qed.

Lemma length_slices (cuts : list Z) : ∀ start, length (slices start cuts) = length cuts.
Proof. induction cuts as [|c rest IH]; intros start; simpl; [done|]. by rewrite IH. Qed.

Lemma length_grid columns rows :
  length (grid columns rows) = (length columns * length rows)%nat.
Proof.
  unfold grid. induction columns as [|c columns IH]; simpl; [done|].
  by rewrite length_app, length_map, IH.
Qed.

(** X18.  [subdivide_box] returns one box for every pair of a column and
    a row: with [v] points that have a vertical cut and [h] points that
    have a horizontal cut it returns [(v + 1) * (h + 1)] boxes, and a box
    subdivided by no point is returned as it is. *)
Theorem subdivide_box_length (h : list SplitPoint) (box : Rect) (points : list loc) :
  length (subdivide_box h box points)
  = (S (length (List.filter (has_vertical h) points))
     * S (length (List.filter (has_horizontal h) points)))%nat
  ∧ subdivide_box h box [] = [box].
Proof.
  split.
  - rewrite subdivide_box_grid, length_grid, !length_slices, !length_app.
    unfold vertical_xs, horizontal_ys. rewrite !length_map. simpl. lia.
  - unfold subdivide_box, Rect_right, Rect_bottom. simpl. destruct box. simpl.
    f_equal. f_equal; lia.
Qed.

(** X19.  [calculate_boxes] never returns an empty list, and no pass
    makes the list shorter: there is always a box to export. *)
Theorem calculate_boxes_nonempty (s : SplitStateManager) :
  (1 ≤ length (calculate_boxes s))%nat ∧
  ∀ group boxes, (length boxes ≤ length (subdivide_all (objects s) group boxes))%nat.
Proof.
  assert (Hpass : ∀ group boxes,
            (length boxes ≤ length (subdivide_all (objects s) group boxes))%nat).
  { intros group boxes. unfold subdivide_all.
    induction boxes as [|box boxes IH]; simpl; [done|].
    rewrite length_app.
    pose proof ((subdivide_box_length_aux (objects s) box
                         (points_in_box (objects s) box group))). lia. }
  split; [|exact Hpass].
  rewrite calculate_boxes_in_order_aux.
  assert (H0 : (1 ≤ length [mkRect 0 0 (screen_size s).1 (screen_size s).2])%nat)
    by (simpl; lia).
  revert H0. generalize [mkRect 0 0 (screen_size s).1 (screen_size s).2].
  induction (group_points s) as [|group groups IH]; intros boxes Hb; simpl; [done|].
  apply IH. specialize (Hpass group boxes). lia.
Qed.

(** *** [delete_point] *)

(** X20.  In every state the program can reach, [delete_point] takes at
    most one point away, the first one within the pick radius of the mouse:
    that point is no longer listed, every other point still is, and the
    list is one shorter.  With no point within the radius [delete_point]
    only resets the [deleting] flag. *)
Theorem delete_point_effect (size : Z * Z) (radius : Z) (s : SplitStateManager)
    (mouse_pos : Z * Z) :
  reachable size radius s →
  let s' := delete_point mouse_pos s in
  match first_near s mouse_pos with
  | Some p =>
      ¬ In p (split_points s') ∧
      (∀ q, q ≠ p → In q (split_points s') ↔ In q (split_points s)) ∧
      S (length (split_points s')) = length (split_points s)
  | None => s' = set_deleting false s
  end.
Proof.
  intros Hs s'. unfold s', delete_point.
  destruct (reachable_well_formed size radius s Hs) as (Hnd & _ & _).
  destruct (reachable_recomputed size radius s Hs) as [_ Hr].
  destruct (first_near s mouse_pos) as [p|] eqn:Hnear.
  - apply first_near_In in Hnear as [Hp _].
    assert (Hl : split_points
                   (calculate_line_rects
                      (set_deleting false
                         (if decide (Some p = selected_point
                                       (set_split_points (list_remove p (split_points s)) s))
                          then set_selected_point None
                                 (set_split_points (list_remove p (split_points s)) s)
                          else set_split_points (list_remove p (split_points s)) s)))
                 = list_remove p (split_points s)).
    { by case_decide. }
    rewrite Hl. split; [by apply list_remove_NoDup_notin|]. split.
    + intros q Hq. split; [apply list_remove_In | by apply list_remove_In_ne].
    + by apply list_remove_length.
  - apply recomputed_objects. simpl.
    change (objects (calculate_line_rects s) = objects s). by rewrite Hr.
Qed.

Lemma delete_point_effect_witness :
  ¬ In 1%nat (split_points (delete_point (52, 79) scenario_T)) ∧
  (∀ q, q ≠ 1%nat → In q (split_points (delete_point (52, 79) scenario_T))
                    ↔ In q (split_points scenario_T)) ∧
  S (length (split_points (delete_point (52, 79) scenario_T)))
  = length (split_points scenario_T).
Proof.
  exact (delete_point_effect (100, 100) 5 scenario_T (52, 79) reachable_scenario_T).
Defined.

(** *** The mouse flags *)

(** X21.  [add_point] resets [placing] only when it creates a point.
    After a release that selects an existing point the flag is still set,
    and the next release runs [add_point] again, whichever button was
    pressed in between: a right click then deletes nothing. *)
Theorem select_leaves_placing (s : SplitStateManager) (mouse_pos : Z * Z) (p : loc) :
  placing s = true →
  first_near s mouse_pos = Some p →
  let s1 := on_mouse_up mouse_pos s in
  s1 = set_selected_point (Some p) s ∧
  placing s1 = true ∧
  ∀ press mouse_pos',
    on_mouse_up mouse_pos' (on_mouse_down press s1)
    = add_point mouse_pos' (on_mouse_down press s1).
Proof.
  intros Hpl Hnear s1.
  assert (Hs1 : s1 = set_selected_point (Some p) s).
  { unfold s1, on_mouse_up, add_point. by rewrite Hpl, Hnear. }
  split; [exact Hs1|]. split; [by rewrite Hs1|].
  intros press mouse_pos'. unfold on_mouse_up.
  assert (Hpl' : placing (on_mouse_down press s1) = true).
  { rewrite Hs1. unfold on_mouse_down. by destruct press as [[[] ?] []]. }
  by rewrite Hpl'.
Qed.

Lemma select_leaves_placing_witness :
  let s := on_mouse_down (true, false, false) scenario_T in
  let s1 := on_mouse_up (51, 49) s in
  s1 = set_selected_point (Some 0%nat) s ∧
  placing s1 = true ∧
  ∀ press mouse_pos',
    on_mouse_up mouse_pos' (on_mouse_down press s1)
    = add_point mouse_pos' (on_mouse_down press s1).
Proof.
  intros s.
  apply (select_leaves_placing s (51, 49) 0%nat); vm_compute; reflexivity.
Defined.




(** *** Points of one index *)

Lemma sorted_same_key {A} (key : A → Z) (l : list A) :
  (∀ x y, In x l → In y l → key x = key y) → sorted key l = l.
Proof.
  unfold sorted. induction l as [|x l IH]; intros Hk; simpl; [done|].
  rewrite IH by (intros; apply Hk; by right).
  destruct l as [|y l]; simpl; [done|].
  rewrite (Hk y x) by (simpl; auto). by rewrite Z.ltb_irrefl.
Qed.

Lemma group_points_loop_same h (points : list loc) : ∀ first current,
  (∀ p, In p points → index (deref h p) = index (deref h first)) →
  foldl (group_points_iter h) ([] ++ [first :: current]) points
  = [first :: current ++ points].
Proof.
  induction points as [|pt points IH]; intros first current Hk; simpl.
  - by rewrite app_nil_r.
  - change (group_points_iter h [first :: current] pt)
      with (group_points_iter h ([] ++ [first :: current]) pt).
    rewrite group_points_iter_snoc, (Hk pt) by (by left). rewrite Z.eqb_refl.
    change ((first :: current) ++ [pt]) with (first :: (current ++ [pt])).
    rewrite IH by (intros; apply Hk; by right).
    by rewrite <- app_assoc.
Qed.

Lemma filter_all {A} (f : A → bool) (l : list A) :
  (∀ x, In x l → f x = true) → List.filter f l = l.
Proof.
  induction l as [|x l IH]; simpl; intros Hf; [done|].
  rewrite (Hf x) by auto. f_equal. apply IH. intros; apply Hf; auto.
Qed.

Lemma filter_has_vertical_cut h (l : list loc) :
  List.filter (has_vertical h) (List.filter (has_cut h) l) = List.filter (has_vertical h) l.
Proof.
  induction l as [|x l IH]; simpl; [done|]. unfold has_cut at 1.
  destruct (has_horizontal h x), (has_vertical h x) eqn:Hv; simpl;
    rewrite ?Hv, IH; done.
Qed.

Lemma filter_has_horizontal_cut h (l : list loc) :
  List.filter (has_horizontal h) (List.filter (has_cut h) l)
  = List.filter (has_horizontal h) l.
Proof.
  induction l as [|x l IH]; simpl; [done|]. unfold has_cut at 1.
  destruct (has_horizontal h x) eqn:Hh, (has_vertical h x); simpl;
    rewrite ?Hh, IH; done.
Qed.

(** X23.  When the points that have a cut all share one index and all
    lie on the canvas, [calculate_boxes] returns the full grid of their
    cuts: the columns run from 0 through the x-coordinates of the vertical
    cuts, in the order of [split_points], to the canvas width, the rows
    from 0 through the y-coordinates of the horizontal cuts to the canvas
    height, and there is one box per column and row, column by column. *)
Theorem calculate_boxes_one_index (s : SplitStateManager) :
  let h := objects s in
  let canvas := mkRect 0 0 (screen_size s).1 (screen_size s).2 in
  (∀ p q, In p (split_points s) → In q (split_points s) →
          has_cut h p = true → has_cut h q = true →
          index (deref h p) = index (deref h q)) →
  (∀ p, In p (split_points s) → has_cut h p = true →
        Rect_contains canvas (pos (deref h p)) = true) →
  calculate_boxes s
  = grid (slices 0 (vertical_xs h (split_points s) ++ [(screen_size s).1]))
         (slices 0 (horizontal_ys h (split_points s) ++ [(screen_size s).2])).
Proof.
  intros h canvas Hidx Hin.
  set (points := List.filter (has_cut h) (split_points s)).
  assert (Hgroups : group_points s = [points]).
  { unfold group_points. fold h. fold points.
    rewrite sorted_same_key.
    - destruct points as [|pt points'] eqn:Hpts; [done|]. simpl.
      change (group_points_iter h [[]] pt) with ([] ++ [[pt]]).
      apply group_points_loop_same. intros p Hp.
      assert (Hp' : In p points) by (rewrite Hpts; by right).
      assert (Hpt : In pt points) by (rewrite Hpts; by left).
      unfold points in Hp', Hpt. apply filter_In in Hp' as [? ?], Hpt as [? ?].
      by apply Hidx.
    - intros p q [? ?]%filter_In [? ?]%filter_In. by apply Hidx. }
  rewrite calculate_boxes_in_order_aux, Hgroups. simpl. fold h. fold canvas.
  unfold subdivide_all. simpl. rewrite app_nil_r.
  assert (Hall : points_in_box h canvas points = points).
  { unfold points_in_box. apply filter_all.
    intros p [? ?]%filter_In. by apply Hin. }
  rewrite Hall, subdivide_box_grid. unfold vertical_xs, horizontal_ys, points.
  rewrite filter_has_vertical_cut, filter_has_horizontal_cut.
  unfold canvas, Rect_right, Rect_bottom. simpl. done.
Qed.

Lemma calculate_boxes_one_index_witness :
  calculate_boxes scenario_grid
  = [mkRect 0 0 60 40; mkRect 0 40 60 60; mkRect 60 0 40 40; mkRect 60 40 40 60].
Proof.
  rewrite (calculate_boxes_one_index scenario_grid).
  - reflexivity.
  - intros p q [<-|[<-|[]]] [<-|[<-|[]]] _ _; reflexivity.
  - intros p [<-|[<-|[]]] _; reflexivity.
Defined.

(** *** Reachable states at rest *)

(** X24.  In every state the program can reach, the cut lines are as the
    recompute leaves them: the horizontal interval [(lo, hi)] of a listed
    point whose x-coordinate is on the canvas contains that coordinate and
    stays on the canvas, [0 <= lo <= x < hi <= width], and likewise for
    its vertical interval, its y-coordinate and the canvas height. *)
Theorem reachable_lines_on_canvas (size : Z * Z) (radius : Z) (s : SplitStateManager)
    (p : loc) :
  reachable size radius s →
  In p (split_points s) →
  let self := deref (objects s) p in
  (∀ lo hi, horizontal self = Some (lo, hi) →
     0 ≤ rect_x (pos self) < (screen_size s).1 →
     0 ≤ lo ∧ lo ≤ rect_x (pos self) < hi ∧ hi ≤ (screen_size s).1) ∧
  (∀ lo hi, vertical self = Some (lo, hi) →
     0 ≤ rect_y (pos self) < (screen_size s).2 →
     0 ≤ lo ∧ lo ≤ rect_y (pos self) < hi ∧ hi ≤ (screen_size s).2).
Proof.
  intros Hs Hin self.
  destruct (reachable_recomputed size radius s Hs) as [_ Hr].
  pose proof (calculate_line_rects_point s p Hin) as Hself. cbv zeta in Hself.
  rewrite Hr in Hself.
  split; intros lo hi Hiv [H0 Hw]; unfold self in Hiv; rewrite Hself in Hiv.
  - apply clip_horizontal_bounds in Hiv as [Hlo Hhi].
    pose proof (is_max_of_below _ _ _ Hlo H0). pose proof (is_min_of_above _ _ _ _ Hhi Hw).
    destruct Hlo as [_ Hlo], Hhi as [_ Hhi].
    specialize (Hlo 0 (or_introl eq_refl)). specialize (Hhi _ (or_introl eq_refl)).
    unfold self. lia.
  - apply clip_vertical_bounds in Hiv as [Hlo Hhi].
    pose proof (is_max_of_below _ _ _ Hlo H0). pose proof (is_min_of_above _ _ _ _ Hhi Hw).
    destruct Hlo as [_ Hlo], Hhi as [_ Hhi].
    specialize (Hlo 0 (or_introl eq_refl)). specialize (Hhi _ (or_introl eq_refl)).
    unfold self. lia.
Qed.

Lemma reachable_lines_on_canvas_witness :
  In 1%nat (split_points scenario_T) ∧
  let self := deref (objects scenario_T) 1%nat in
  ∀ lo hi, vertical self = Some (lo, hi) →
    0 ≤ rect_y (pos self) < 100 →
    0 ≤ lo ∧ lo ≤ rect_y (pos self) < hi ∧ hi ≤ 100.
Proof.
  assert (Hin : In 1%nat (split_points scenario_T)) by (right; left; reflexivity).
  split; [exact Hin|].
  exact (proj2 (reachable_lines_on_canvas (100, 100) 5 scenario_T 1%nat
                  reachable_scenario_T Hin)).
Defined.

Lemma point_positions_same (s s' : SplitStateManager) :
  (∀ q, In q (split_points s') → In q (split_points s)) →
  (∀ q, pos (deref (objects s') q) = pos (deref (objects s) q)) →
  point_positions s → point_positions s'.
Proof. intros Hl Hpos Hs p Hp. rewrite Hpos. by apply Hs, Hl. Qed.

Lemma point_positions_recompute_mutate f (p : loc) (s : SplitStateManager) :
  (∀ x, pos (f x) = pos x) →
  point_positions s →
  point_positions (calculate_line_rects (set_objects (mutate f p (objects s)) s)).
Proof.
  intros Hf. apply point_positions_same; [done|].
  intros q. rewrite (frame_pos _ _ (calculate_line_rects_frames _ q)). simpl.
  by apply pos_deref_alter.
Qed.

Lemma point_positions_add_point mouse_pos (s : SplitStateManager) :
  valid_refs s → point_positions s → point_positions (add_point mouse_pos s).
Proof.
  intros Hv Hs. unfold add_point.
  destruct (first_near s mouse_pos) as [p|]; [done|].
  intros p. simpl. rewrite in_app_iff. simpl. intros [Hp|[<-|[]]].
  - rewrite deref_app_l by auto. by apply Hs.
  - unfold deref. by rewrite list_lookup_total_middle.
Qed.

Lemma point_positions_delete_point mouse_pos (s : SplitStateManager) :
  point_positions s → point_positions (delete_point mouse_pos s).
Proof.
  unfold delete_point. apply point_positions_same.
  - intros q. destruct (first_near s mouse_pos) as [p|]; [|done].
    case_decide; simpl; apply list_remove_In.
  - intros q. rewrite (frame_pos _ _ (calculate_line_rects_frames _ q)).
    destruct (first_near s mouse_pos) as [p|]; [|done]. by case_decide.
Qed.

(** X25.  In every state the program can reach, the position of every
    listed point is the 0x0 rectangle that [SplitPoint.__init__] made:
    no command resizes it. *)
Theorem reachable_point_positions (size : Z * Z) (radius : Z) (s : SplitStateManager)
    (p : loc) :
  reachable size radius s →
  In p (split_points s) →
  rect_w (pos (deref (objects s) p)) = 0 ∧
  rect_h (pos (deref (objects s) p)) = 0.
Proof.
  intros Hs Hp.
  assert (Hpp : point_positions s).
  { clear p Hp. induction Hs as [|c s Hs IH]; [by intros p []|].
    destruct (reachable_well_formed size radius s Hs) as (_ & Hv & _).
    destruct c; simpl.
    - unfold on_mouse_down. by destruct press as [[[] ?] []].
    - unfold on_mouse_up. destruct (placing s); [by apply point_positions_add_point|].
      destruct (deleting s); [by apply point_positions_delete_point | done].
    - by apply point_positions_add_point.
    - by apply point_positions_delete_point.
    - unfold horizontal_split. destruct (selected_point s); [|done].
      apply point_positions_recompute_mutate; [|done].
      intros x. unfold toggle_horizontal. by destruct (horizontal x).
    - unfold vertical_split. destruct (selected_point s); [|done].
      apply point_positions_recompute_mutate; [|done].
      intros x. unfold toggle_vertical. by destruct (vertical x).
    - unfold increment_index. destruct (selected_point s); [|done].
      by apply point_positions_recompute_mutate.
    - unfold decrement_index. destruct (selected_point s); [|done].
      by apply point_positions_recompute_mutate. }
  by apply Hpp.
Qed.

Lemma reachable_point_positions_witness :
  rect_w (pos (deref (objects scenario_T) 1%nat)) = 0 ∧
  rect_h (pos (deref (objects scenario_T) 1%nat)) = 0.
Proof.
  apply (reachable_point_positions (100, 100) 5 scenario_T 1%nat reachable_scenario_T).
  right. left. reflexivity.
Defined.
